(** * Minimax with alpha-beta pruning: a shallow embedding of [src/index.ts]

    The source is one generic function, [Minimax], and its recursive engine,
    [runMinimaxAlgorithm], parameterised by five caller callbacks.  The board
    is a mutable object that the callbacks [applyTransition] and
    [undoTransition] change in place, and the tie-break uses the global
    generator [math.random].  Both are modelled by explicit state passing
    over a [World]: the current content of the board object, the stream of
    outcomes the generator is still going to produce, and the log of the
    external calls made so far.

    Numbers: the scores of the source are Lua numbers.  They are modelled as
    integers in [Z]; the sentinels 9e9 and -9e9 and the scores 9e9 - 1 and
    -9e9 + 1 are integers that a double represents exactly. *)

From Stdlib Require Import ZArith List Bool Lia.
Import ListNotations.
Local Open Scope Z_scope.

Set Implicit Arguments.

(** ** Integer maximum and minimum of a non-empty list (used by the
       reference minimax only) *)

Definition maximum (x : Z) (l : list Z) : Z := fold_left Z.max l x.
Definition minimum (x : Z) (l : list Z) : Z := fold_left Z.min l x.

(** ** The sentinels of the source *)

(** [9e9] and [-9e9], the initial bounds and the initial [best]. *)
Definition POS_INF : Z := 9000000000.
Definition NEG_INF : Z := - 9000000000.
(** [-9e9 + 1] (line 76) and [9e9 - 1] (line 79). *)
Definition LOSS_SCORE : Z := NEG_INF + 1.
Definition WIN_SCORE : Z := POS_INF - 1.

Section Engine.

(** [T]: the board type; [U]: the transition type. *)
Variables T U : Type.

(** The callbacks.  [calculateTransitions], [calculateBoard] and
    [calculateEndState] are read-only on the board, so they are functions of
    its content; [applyTransition] and [undoTransition] return nothing and
    mutate the board, so they are functions from the old content to the new
    one. *)
Variable calculateTransitions : T -> bool -> list U.
Variable applyTransition : T -> U -> T.
Variable undoTransition : T -> U -> T.
Variable calculateBoard : T -> Z.
Variable calculateEndState : T -> Z.

(** The external calls the engine makes, with the board content they see. *)
Inductive Event : Type :=
| ECalcTransitions (b : T) (isOwnTurn : bool)
| ECalcEndState (b : T)
| ECalcBoard (b : T)
| EApply (b : T) (t : U)
| EUndo (b : T) (t : U)
| ERandom (m n : nat)
| EPrint (value : Z).

Record World : Type := mkWorld {
  board : T;               (* content of the board object *)
  rng : nat -> nat;        (* outcomes math.random is still going to draw *)
  trace : list Event       (* external calls so far, oldest first *)
}.

(** *** A state monad over the world *)

Definition M (A : Type) : Type := World -> A * World.

Definition ret {A} (a : A) : M A := fun w => (a, w).
Definition bind {A B} (c : M A) (k : A -> M B) : M B :=
  fun w => let r := c w in k (fst r) (snd r).

Notation "x <- c ;; k" := (bind c (fun x => k))
  (at level 61, c at next level, right associativity).
Notation "c ;;; k" := (bind c (fun _ => k))
  (at level 61, right associativity).

Definition record (e : Event) (w : World) : World :=
  mkWorld (board w) (rng w) (trace w ++ [e]).

Definition callTransitions (isOwnTurn : bool) : M (list U) :=
  fun w => (calculateTransitions (board w) isOwnTurn,
            record (ECalcTransitions (board w) isOwnTurn) w).

Definition callEndState : M Z :=
  fun w => (calculateEndState (board w), record (ECalcEndState (board w)) w).

Definition callBoard : M Z :=
  fun w => (calculateBoard (board w), record (ECalcBoard (board w)) w).

Definition callApply (t : U) : M unit :=
  fun w => (tt, mkWorld (applyTransition (board w) t) (rng w)
                        (trace w ++ [EApply (board w) t])).

Definition callUndo (t : U) : M unit :=
  fun w => (tt, mkWorld (undoTransition (board w) t) (rng w)
                        (trace w ++ [EUndo (board w) t])).

(** [math.random(m, n)]: an integer of the interval [m .. n].  The next
    outcome of the stream is reduced into the interval, and the stream moves
    on.  The source calls it with [m <= n] only. *)
Definition math_random (m n : nat) : M nat :=
  fun w => ((m + Nat.modulo (rng w 0%nat) (n - m + 1))%nat,
            mkWorld (board w) (fun k => rng w (S k)) (trace w ++ [ERandom m n])).

Definition print (value : Z) : M unit :=
  fun w => (tt, record (EPrint value) w).

(** The components of what an engine call leaves behind. *)
Definition transitionOf (r : (option U * Z) * World) : option U := fst (fst r).
Definition valueOf (r : (option U * Z) * World) : Z := snd (fst r).

(** *** The loop of lines 86-127 *)

(** The four variables the [forEach] callback reads and assigns. *)
Record Frame : Type := mkFrame {
  best : Z;
  bestTransitions : list U;
  alpha : Z;
  beta : Z
}.

(** Lines 112-123: the comparison of a child's value with [best]. *)
Definition update (isMax : bool) (transition : U) (calculatedValue : Z)
    (f : Frame) : Frame :=
  if calculatedValue =? best f then
    mkFrame (best f) (bestTransitions f ++ [transition]) (alpha f) (beta f)
  else if (isMax && (calculatedValue >? best f))
          || (negb isMax && (calculatedValue <? best f)) then
    if isMax then
      mkFrame calculatedValue [transition]
              (Z.max (alpha f) calculatedValue) (beta f)
    else
      mkFrame calculatedValue [transition]
              (alpha f) (Z.min (beta f) calculatedValue)
  else f.

(** Lines 88-127: the callback given to [forEach].  [recurse] is the
    recursive call of line 97 at [depth + 1]. *)
Definition visit (recurse : bool -> Z -> Z -> M (option U * Z))
    (isMax : bool) (transition : U) (f : Frame) : M Frame :=
  if alpha f >? beta f then ret f
  else
    callApply transition ;;;
    r <- recurse (negb isMax) (alpha f) (beta f) ;;
    let f' := update isMax transition (snd r) f in
    callUndo transition ;;;
    ret f'.

(** [transitions.forEach(callback)]: the callback runs on every element, in
    order. *)
Fixpoint forEach (callback : U -> Frame -> M Frame) (transitions : list U)
    (f : Frame) : M Frame :=
  match transitions with
  | [] => ret f
  | transition :: rest => f' <- callback transition f ;; forEach callback rest f'
  end.

(** Lines 129-134. *)
Definition selectResult (f : Frame) : M (option U * Z) :=
  if (length (bestTransitions f) =? 0)%nat then ret (None, best f)
  else
    i <- math_random 0 (length (bestTransitions f) - 1) ;;
    ret (nth_error (bestTransitions f) i, best f).

(** *** The engine

    [search n] is [runMinimaxAlgorithm] at a node with [n = maxDepth - depth]
    levels left: the test [depth === maxDepth] of line 66 is [n = 0], and the
    recursive call at [depth + 1] has one level less. *)
Fixpoint search (n : nat) (isMax : bool) (alpha0 beta0 : Z)
    : M (option U * Z) :=
  match n with
  | O => v <- callBoard ;; ret (None, v)
  | S n' =>
      transitions <- callTransitions isMax ;;
      isEndState <- callEndState ;;
      if isEndState <? 0 then ret (None, LOSS_SCORE)
      else if isEndState >? 0 then ret (None, WIN_SCORE)
      else if (length transitions =? 0)%nat then ret (None, 0)
      else
        f <- forEach (visit (search n') isMax) transitions
               (mkFrame (if isMax then NEG_INF else POS_INF) [] alpha0 beta0) ;;
        selectResult f
  end.

(** [runMinimaxAlgorithm] with the source's parameters, for
    [depth <= maxDepth]: [Minimax] calls it at depth 0 with a natural
    [maxDepth], and every recursive call keeps [depth <= maxDepth].  For
    [depth > maxDepth] the test of line 66 never holds in the source, which
    searches on; the definition is not the source's function there. *)
Definition runMinimaxAlgorithm (depth maxDepth : nat) (isMax : bool)
    (alpha0 beta0 : Z) : M (option U * Z) :=
  search (maxDepth - depth) isMax alpha0 beta0.

(** Lines 27-51.  The [board] argument of the source is the object held by
    the world. *)
Definition Minimax (maxDepth : nat) : M (option U) :=
  r <- runMinimaxAlgorithm 0 maxDepth true NEG_INF POS_INF ;;
  print (snd r) ;;;
  ret (fst r).

(** *** The reference: exhaustive minimax over the game tree

    Written from the words of the specification (depth-limit, end-state and
    no-move terminals, otherwise the largest or smallest child value), with
    no bounds, no pruning and no board mutation: the child reached by
    [t] from [b] is [applyTransition b t]. *)
Fixpoint fullMinimax (n : nat) (b : T) (isMax : bool) : Z :=
  match n with
  | O => calculateBoard b
  | S n' =>
      if calculateEndState b <? 0 then LOSS_SCORE
      else if calculateEndState b >? 0 then WIN_SCORE
      else
        match map (fun t => fullMinimax n' (applyTransition b t) (negb isMax))
                  (calculateTransitions b isMax) with
        | [] => 0
        | v :: vs => if isMax then maximum v vs else minimum v vs
        end
  end.

(** The world of a node of [search (S n)] after the two callbacks of lines
    70 and 73, and the variables of line 86-87 with the bounds received. *)
Definition entered (isMax : bool) (w : World) : World :=
  record (ECalcEndState (board w))
         (record (ECalcTransitions (board w) isMax) w).

Definition rootFrame (isMax : bool) (a b : Z) : Frame :=
  mkFrame (if isMax then NEG_INF else POS_INF) [] a b.

(** *** Apply/undo discipline on the log

    A log is bracketed when every [EApply] of a transition is closed by an
    [EUndo] of the same transition, and the pairs nest. *)
Definition isMutation (e : Event) : bool :=
  match e with
  | EApply _ _ | EUndo _ _ => true
  | _ => false
  end.

Inductive Bracketed : list Event -> Prop :=
| Bracketed_nil : Bracketed []
| Bracketed_call e l :
    isMutation e = false -> Bracketed l -> Bracketed (e :: l)
| Bracketed_pair b t inner b' rest :
    Bracketed inner -> Bracketed rest ->
    Bracketed (EApply b t :: inner ++ EUndo b' t :: rest).

(** [w'] is [w] after a bracketed run of external calls. *)
Definition Extends (w w' : World) : Prop :=
  exists evs, trace w' = trace w ++ evs /\ Bracketed evs.

(** The exact-undo precondition of the callbacks, on the transitions the
    generator can produce. *)
Definition ExactUndo : Prop :=
  forall b isOwnTurn t,
    In t (calculateTransitions b isOwnTurn) ->
    undoTransition (applyTransition b t) t = b.

(** The fail-soft guarantee of a search with the closed window [a .. b]:
    a result below the window is an upper bound of the exact value [F], a
    result above it is a lower bound, a result inside it is exact. *)
Definition WindowSpec (a b r F : Z) : Prop :=
  (r < a -> F <= r) /\ (b < r -> r <= F) /\ (a <= r <= b -> F = r).

(** Every score of [calculateBoard] lies within the sentinels, and the
    weaker condition that none lies below the lower one. *)
Definition ScoresInRange : Prop :=
  forall b, NEG_INF <= calculateBoard b <= POS_INF.
Definition ScoresAboveNegInf : Prop :=
  forall b, NEG_INF <= calculateBoard b.

(** The final [best] of the loop of a node with [n] levels below it, over
    the siblings still to visit. *)
Definition loopBest (n : nat) (isMax : bool) (rest : list U) (f : Frame)
    (w : World) : Z :=
  best (fst (forEach (visit (search n) isMax) rest f w)).

(** The body of [runMinimaxAlgorithm] as the source writes it, lines 66-134,
    with the recursive call of line 97 as the parameter [recurse]. *)
Definition runMinimaxAlgorithm_body
    (recurse : bool -> Z -> Z -> M (option U * Z))
    (depth maxDepth : nat) (isMax : bool) (alpha0 beta0 : Z)
    : M (option U * Z) :=
  if (depth =? maxDepth)%nat then v <- callBoard ;; ret (None, v)
  else
    transitions <- callTransitions isMax ;;
    isEndState <- callEndState ;;
    if isEndState <? 0 then ret (None, LOSS_SCORE)
    else if isEndState >? 0 then ret (None, WIN_SCORE)
    else if (length transitions =? 0)%nat then ret (None, 0)
    else
      f <- forEach (visit recurse isMax) transitions
             (mkFrame (if isMax then NEG_INF else POS_INF) [] alpha0 beta0) ;;
      selectResult f.

(** Two worlds that hold the same board and the same log; the outcomes
    still to be drawn may differ. *)
Definition SameButRng (w1 w2 : World) : Prop :=
  board w1 = board w2 /\ trace w1 = trace w2.

(** Every transition of the tie-break set is one of the enumerated
    transitions [all], and the search below it, run right after applying it,
    returned the current [best]. *)
Definition Achieves (recurse : bool -> Z -> Z -> M (option U * Z))
    (isMax : bool) (all : list U) (f : Frame) : Prop :=
  forall t, In t (bestTransitions f) ->
    In t all /\
    exists a b w,
      valueOf (recurse (negb isMax) a b (snd (callApply t w))) = best f.


(** *** Further notions used to state what the engine computes *)

(** The generated transitions of a node with [n] levels below it whose
    subtree has the node's exhaustive value, in generation order. *)
Definition optimalMoves (n : nat) (b : T) (isMax : bool) : list U :=
  filter (fun t => fullMinimax n (applyTransition b t) (negb isMax)
                   =? fullMinimax (S n) b isMax)
         (calculateTransitions b isMax).

(** A generator that draws the same outcome forever. *)
Definition ConstRng (i : nat) (w : World) : Prop := forall k, rng w k = i.

(** The calls of a search with [n] levels left, for the role [isMax], on
    the board [b]: a depth-limit leaf only evaluates the board; any other
    node generates the transitions of its role, checks the end state, visits
    children and draws at most once, last.  A child is visited between the
    apply and the undo of one generated transition, on the board the apply
    produced, with the opposite role and one level less. *)
Inductive NodeLog : nat -> bool -> T -> list Event -> Prop :=
| NodeLog_leaf isMax b : NodeLog 0 isMax b [ECalcBoard b]
| NodeLog_node n isMax b kids draw :
    ChildrenLog n isMax b kids ->
    draw = [] \/ (exists k, draw = [ERandom 0 k]) ->
    NodeLog (S n) isMax b
            (ECalcTransitions b isMax :: ECalcEndState b :: kids ++ draw)
with ChildrenLog : nat -> bool -> T -> list Event -> Prop :=
| ChildrenLog_nil n isMax b : ChildrenLog n isMax b []
| ChildrenLog_cons n isMax b t inner rest :
    In t (calculateTransitions b isMax) ->
    NodeLog n (negb isMax) (applyTransition b t) inner ->
    ChildrenLog n isMax b rest ->
    ChildrenLog n isMax b
                (EApply b t :: inner ++ EUndo (applyTransition b t) t :: rest).

End Engine.

Arguments ECalcTransitions {T U} b isOwnTurn.
Arguments ECalcEndState {T U} b.
Arguments ECalcBoard {T U} b.
Arguments EApply {T U} b t.
Arguments EUndo {T U} b t.
Arguments ERandom {T U} m n.
Arguments EPrint {T U} value.
Arguments rootFrame {U} isMax a b.

(** ** Sample games

    Boards are the list of the moves played so far, latest first:
    applying a move pushes it, undoing a move pops it. *)
Module Sample.

Definition pathApply (b : list nat) (t : nat) : list nat := t :: b.
Definition pathUndo (b : list nat) (t : nat) : list nat := tl b.
Definition noEnd (b : list nat) : Z := 0.
Definition start (draws : nat -> nat) : World (list nat) nat :=
  mkWorld (U := nat) (@nil nat) draws [].
Definition zeros : nat -> nat := fun _ => 0%nat.
Definition ones : nat -> nat := fun _ => 1%nat.

(** Three moves A, B, C (0, 1, 2) from the empty board, scored 5, 9, 9. *)
Definition lineMoves (b : list nat) (isOwnTurn : bool) : list nat :=
  match b with
  | [] => [0; 1; 2]%nat
  | _ => []
  end.
Definition lineScore (b : list nat) : Z :=
  match b with
  | [O] => 5
  | [_] => 9
  | _ => 0
  end.

(** Depth 2, branching factor 2, leaves 3 5 | 2 9. *)
Definition binMoves (b : list nat) (isOwnTurn : bool) : list nat := [0; 1]%nat.
Definition binScore (b : list nat) : Z :=
  match b with
  | [0; 0]%nat => 3
  | [1; 0]%nat => 5
  | [0; 1]%nat => 2
  | [1; 1]%nat => 9
  | _ => 0
  end.

(** Two moves whose boards score 1e10 and 2e10, above the 9e9 sentinel. *)
Definition hugeScore (b : list nat) : Z :=
  match b with
  | [O] => 10000000000
  | _ => 20000000000
  end.

(** Every board scores -1e10, below the -9e9 sentinel. *)
Definition tinyScore (b : list nat) : Z := - 10000000000.

(** Every board scores 9e9. *)
Definition topScore (b : list nat) : Z := 9000000000.

(** The game is won (or lost) on the starting board although moves exist. *)
Definition wonAtStart (b : list nat) : Z := 1.
Definition lostAtStart (b : list nat) : Z := -1.


(** The game is won on the board reached by move 1 from the start. *)
Definition wonAfterMoveOne (b : list nat) : Z :=
  match b with
  | [1%nat] => 1
  | _ => 0
  end.

End Sample.

(** ** Properties of the engine *)

Section Properties.

Variables T U : Type.
Variable calculateTransitions : T -> bool -> list U.
Variable applyTransition : T -> U -> T.
Variable undoTransition : T -> U -> T.
Variable calculateBoard : T -> Z.
Variable calculateEndState : T -> Z.

Abbreviation World := (World T U).
Abbreviation Frame := (Frame U).
Abbreviation M := (M T U).
Abbreviation visit := (visit applyTransition undoTransition).
Abbreviation search :=
  (search calculateTransitions applyTransition undoTransition
          calculateBoard calculateEndState).
Abbreviation runMinimaxAlgorithm :=
  (runMinimaxAlgorithm calculateTransitions applyTransition undoTransition
                       calculateBoard calculateEndState).
Abbreviation Minimax :=
  (Minimax calculateTransitions applyTransition undoTransition
           calculateBoard calculateEndState).
Abbreviation fullMinimax :=
  (fullMinimax calculateTransitions applyTransition
               calculateBoard calculateEndState).
Abbreviation ExactUndo := (ExactUndo calculateTransitions applyTransition undoTransition).
Abbreviation ScoresInRange := (ScoresInRange calculateBoard).
Abbreviation ScoresAboveNegInf := (ScoresAboveNegInf calculateBoard).
Abbreviation loopBest :=
  (loopBest calculateTransitions applyTransition undoTransition
            calculateBoard calculateEndState).
Abbreviation runMinimaxAlgorithm_body :=
  (runMinimaxAlgorithm_body calculateTransitions applyTransition undoTransition
                            calculateBoard calculateEndState).

(** *** Unfolding equations *)

Lemma visit_skip (rec : bool -> Z -> Z -> M (option U * Z)) isMax t (f : Frame) (w : World) :
  beta f < alpha f -> visit rec isMax t f w = (f, w).
Proof.
  intros H. unfold visit.
  destruct (Z.gtb_spec (alpha f) (beta f)); [reflexivity | lia].
Qed.

Lemma visit_enter (rec : bool -> Z -> Z -> M (option U * Z)) isMax t (f : Frame) (w : World) :
  alpha f <= beta f ->
  visit rec isMax t f w =
    (update isMax t (valueOf (rec (negb isMax) (alpha f) (beta f) (snd (callApply applyTransition t w)))) f,
     snd (callUndo undoTransition t (snd (rec (negb isMax) (alpha f) (beta f) (snd (callApply applyTransition t w)))))).
Proof.
  intros H. unfold visit.
  destruct (Z.gtb_spec (alpha f) (beta f)); [lia | reflexivity].
Qed.

Lemma forEach_cons (cb : U -> Frame -> M Frame) t rest (f : Frame) (w : World) :
  forEach cb (t :: rest) f w = forEach cb rest (fst (cb t f w)) (snd (cb t f w)).
Proof. reflexivity. Qed.

Lemma forEach_skip (rec : bool -> Z -> Z -> M (option U * Z)) isMax l (f : Frame) (w : World) :
  beta f < alpha f -> forEach (visit rec isMax) l f w = (f, w).
Proof.
  intros H. induction l as [|t l IH]; [reflexivity|].
  rewrite forEach_cons, visit_skip by assumption. exact IH.
Qed.

Lemma search_leaf isMax a b (w : World) :
  search 0 isMax a b w = ((None, calculateBoard (board w)), record (ECalcBoard (board w)) w).
Proof. reflexivity. Qed.

Lemma search_lost n isMax a b (w : World) :
  calculateEndState (board w) < 0 ->
  search (S n) isMax a b w = ((None, LOSS_SCORE), entered isMax w).
Proof.
  intros H. cbn -[LOSS_SCORE WIN_SCORE]. unfold bind. cbn -[LOSS_SCORE WIN_SCORE].
  destruct (Z.ltb_spec (calculateEndState (board w)) 0); [reflexivity | lia].
Qed.

Lemma search_won n isMax a b (w : World) :
  0 < calculateEndState (board w) ->
  search (S n) isMax a b w = ((None, WIN_SCORE), entered isMax w).
Proof.
  intros H. cbn -[LOSS_SCORE WIN_SCORE]. unfold bind. cbn -[LOSS_SCORE WIN_SCORE].
  destruct (Z.ltb_spec (calculateEndState (board w)) 0); [lia|].
  destruct (Z.gtb_spec (calculateEndState (board w)) 0); [reflexivity | lia].
Qed.

Lemma search_stuck n isMax a b (w : World) :
  calculateEndState (board w) = 0 ->
  calculateTransitions (board w) isMax = [] ->
  search (S n) isMax a b w = ((None, 0), entered isMax w).
Proof.
  intros H E. cbn -[LOSS_SCORE WIN_SCORE]. unfold bind. cbn -[LOSS_SCORE WIN_SCORE].
  rewrite H, E. reflexivity.
Qed.

Lemma search_interior n isMax a b (w : World) :
  calculateEndState (board w) = 0 ->
  calculateTransitions (board w) isMax <> [] ->
  search (S n) isMax a b w =
    (let r := forEach (visit (search n) isMax)
                (calculateTransitions (board w) isMax)
                (rootFrame isMax a b) (entered isMax w) in
     selectResult (fst r) (snd r)).
Proof.
  intros H E. cbn -[LOSS_SCORE WIN_SCORE NEG_INF POS_INF]. unfold bind.
  cbn -[LOSS_SCORE WIN_SCORE NEG_INF POS_INF].
  rewrite H. cbn -[LOSS_SCORE WIN_SCORE NEG_INF POS_INF].
  destruct (calculateTransitions (board w) isMax); [congruence | reflexivity].
Qed.

Lemma selectResult_value (f : Frame) (w : World) :
  valueOf (selectResult f w) = best f.
Proof.
  unfold selectResult. destruct (length (bestTransitions f) =? 0)%nat; reflexivity.
Qed.

Lemma selectResult_board (f : Frame) (w : World) :
  board (snd (selectResult f w)) = board w.
Proof.
  unfold selectResult. destruct (length (bestTransitions f) =? 0)%nat; reflexivity.
Qed.

(** The engine satisfies the recursive definition of the source: the body
    of lines 66-134 with the call of line 97 made at [depth + 1]. *)
Lemma runMinimaxAlgorithm_unfold depth maxDepth isMax a b (w : World) :
  (depth <= maxDepth)%nat ->
  runMinimaxAlgorithm depth maxDepth isMax a b w =
  runMinimaxAlgorithm_body (runMinimaxAlgorithm (depth + 1) maxDepth)
                           depth maxDepth isMax a b w.
Proof.
  intros H. unfold runMinimaxAlgorithm, runMinimaxAlgorithm_body.
  destruct (Nat.eqb_spec depth maxDepth) as [->|Hne].
  - rewrite Nat.sub_diag. reflexivity.
  - replace (maxDepth - depth)%nat with (S (maxDepth - (depth + 1))) by lia.
    reflexivity.
Qed.

Lemma runMinimaxAlgorithm_interior depth maxDepth :
  (depth < maxDepth)%nat ->
  exists n, (maxDepth - depth = S n)%nat /\ (maxDepth - (depth + 1) = n)%nat.
Proof. intros H. exists (maxDepth - depth - 1)%nat. lia. Qed.

(** *** The board is restored, and the log is bracketed *)

Lemma Bracketed_app (l1 l2 : list (Event T U)) :
  Bracketed l1 -> Bracketed l2 -> Bracketed (l1 ++ l2).
Proof.
  induction 1 as [| e l He Hl IH | b t inner b' rest Hi IHi Hr IHr]; intros H2.
  - exact H2.
  - cbn. apply Bracketed_call; auto.
  - cbn. rewrite <- app_assoc. cbn. apply Bracketed_pair; auto.
Qed.

Lemma Extends_refl (w : World) : Extends w w.
Proof. exists []. split; [now rewrite app_nil_r | constructor]. Qed.

Lemma Extends_trans (w1 w2 w3 : World) :
  Extends w1 w2 -> Extends w2 w3 -> Extends w1 w3.
Proof.
  intros (e1 & E1 & B1) (e2 & E2 & B2). exists (e1 ++ e2). split.
  - now rewrite E2, E1, app_assoc.
  - now apply Bracketed_app.
Qed.

Lemma Extends_record (e : Event T U) (w : World) :
  isMutation e = false -> Extends w (record e w).
Proof.
  intros H. exists [e]. split; [reflexivity|]. apply Bracketed_call; [exact H | constructor].
Qed.

Lemma Extends_entered isMax (w : World) : Extends w (entered isMax w).
Proof.
  unfold entered. eapply Extends_trans; apply Extends_record; reflexivity.
Qed.

Lemma selectResult_extends (f : Frame) (w : World) :
  Extends w (snd (selectResult f w)).
Proof.
  unfold selectResult. destruct (length (bestTransitions f) =? 0)%nat.
  - apply Extends_refl.
  - exists [ERandom 0 (length (bestTransitions f) - 1)]. split; [reflexivity|].
    apply Bracketed_call; [reflexivity | constructor].
Qed.

Section Loop.

Variable rec : bool -> Z -> Z -> M (option U * Z).
Variable isMax : bool.

Lemma visit_board t (f : Frame) (w : World) :
  (forall m a b w', board (snd (rec m a b w')) = board w') ->
  undoTransition (applyTransition (board w) t) t = board w ->
  board (snd (visit rec isMax t f w)) = board w.
Proof.
  intros Hrec Hundo.
  destruct (Z_lt_le_dec (beta f) (alpha f)) as [Hc|Hc].
  - now rewrite visit_skip.
  - rewrite visit_enter by assumption. cbn. rewrite Hrec. exact Hundo.
Qed.

Lemma forEach_board l (f : Frame) (w : World) :
  (forall m a b w', board (snd (rec m a b w')) = board w') ->
  (forall t, In t l -> undoTransition (applyTransition (board w) t) t = board w) ->
  board (snd (forEach (visit rec isMax) l f w)) = board w.
Proof.
  intros Hrec. revert f w.
  induction l as [|t l IH]; intros f w Hundo; [reflexivity|].
  rewrite forEach_cons.
  assert (Hb : board (snd (visit rec isMax t f w)) = board w)
    by (apply visit_board; [exact Hrec | apply Hundo; now left]).
  rewrite IH; [exact Hb|].
  intros t' Ht'. rewrite Hb. apply Hundo. now right.
Qed.

Lemma visit_extends t (f : Frame) (w : World) :
  (forall m a b w', Extends w' (snd (rec m a b w'))) ->
  Extends w (snd (visit rec isMax t f w)).
Proof.
  intros Hrec.
  destruct (Z_lt_le_dec (beta f) (alpha f)) as [Hc|Hc].
  - rewrite visit_skip by assumption. apply Extends_refl.
  - rewrite visit_enter by assumption.
    destruct (Hrec (negb isMax) (alpha f) (beta f) (snd (callApply applyTransition t w)))
      as (inner & E & B).
    exists (EApply (board w) t :: inner
            ++ EUndo (board (snd (rec (negb isMax) (alpha f) (beta f)
                                      (snd (callApply applyTransition t w))))) t :: []).
    split.
    + unfold callUndo at 1. cbn [snd trace]. rewrite E.
      unfold callApply. cbn [snd trace board]. rewrite <- !app_assoc. reflexivity.
    + apply Bracketed_pair; [exact B | constructor].
Qed.

Lemma forEach_extends l (f : Frame) (w : World) :
  (forall m a b w', Extends w' (snd (rec m a b w'))) ->
  Extends w (snd (forEach (visit rec isMax) l f w)).
Proof.
  intros Hrec. revert f w.
  induction l as [|t l IH]; intros f w; [apply Extends_refl|].
  rewrite forEach_cons. eapply Extends_trans; [apply visit_extends, Hrec | apply IH].
Qed.

End Loop.

Lemma search_board (Hundo : ExactUndo) n :
  forall isMax a b (w : World), board (snd (search n isMax a b w)) = board w.
Proof.
  induction n as [|n IH]; intros isMax a b w; [reflexivity|].
  destruct (Z.lt_trichotomy (calculateEndState (board w)) 0) as [H|[H|H]].
  - now rewrite search_lost.
  - destruct (calculateTransitions (board w) isMax) as [|t ts] eqn:E.
    + now rewrite search_stuck.
    + rewrite search_interior by (rewrite ?E; congruence).
      cbv zeta. rewrite selectResult_board, forEach_board; [reflexivity | exact IH |].
      intros t' Ht'. cbn. apply (Hundo (board w) isMax). exact Ht'.
  - now rewrite search_won.
Qed.

Lemma search_extends n :
  forall isMax a b (w : World), Extends w (snd (search n isMax a b w)).
Proof.
  induction n as [|n IH]; intros isMax a b w.
  - rewrite search_leaf. now apply Extends_record.
  - destruct (Z.lt_trichotomy (calculateEndState (board w)) 0) as [H|[H|H]].
    + rewrite search_lost by assumption. apply Extends_entered.
    + destruct (calculateTransitions (board w) isMax) as [|t ts] eqn:E.
      * rewrite search_stuck by assumption. apply Extends_entered.
      * rewrite search_interior by (rewrite ?E; congruence).
        cbv zeta. eapply Extends_trans; [apply Extends_entered|].
        eapply Extends_trans; [apply forEach_extends, IH | apply selectResult_extends].
    + rewrite search_won by assumption. apply Extends_entered.
Qed.

(** *** The reference minimax *)

Lemma maximum_spec (l : list Z) : forall x,
  x <= maximum x l /\
  (forall y, In y l -> y <= maximum x l) /\
  (forall r, x <= r -> (forall y, In y l -> y <= r) -> maximum x l <= r).
Proof.
  unfold maximum. induction l as [|z l IH]; intros x; cbn.
  - repeat split; intros; try lia; contradiction.
  - destruct (IH (Z.max x z)) as (H1 & H2 & H3). repeat split.
    + lia.
    + intros y [->|Hy]; [lia | auto].
    + intros r Hx Hr. apply H3; [|auto]. assert (z <= r) by (apply Hr; now left). lia.
Qed.

Lemma minimum_spec (l : list Z) : forall x,
  minimum x l <= x /\
  (forall y, In y l -> minimum x l <= y) /\
  (forall r, r <= x -> (forall y, In y l -> r <= y) -> r <= minimum x l).
Proof.
  unfold minimum. induction l as [|z l IH]; intros x; cbn.
  - repeat split; intros; try lia; contradiction.
  - destruct (IH (Z.min x z)) as (H1 & H2 & H3). repeat split.
    + lia.
    + intros y [->|Hy]; [lia | auto].
    + intros r Hx Hr. apply H3; [|auto]. assert (r <= z) by (apply Hr; now left). lia.
Qed.

Lemma fullMinimax_lost n b isMax :
  calculateEndState b < 0 -> fullMinimax (S n) b isMax = LOSS_SCORE.
Proof.
  intros H. cbn -[LOSS_SCORE WIN_SCORE].
  destruct (Z.ltb_spec (calculateEndState b) 0); [reflexivity | lia].
Qed.

Lemma fullMinimax_won n b isMax :
  0 < calculateEndState b -> fullMinimax (S n) b isMax = WIN_SCORE.
Proof.
  intros H. cbn -[LOSS_SCORE WIN_SCORE].
  destruct (Z.ltb_spec (calculateEndState b) 0); [lia|].
  destruct (Z.gtb_spec (calculateEndState b) 0); [reflexivity | lia].
Qed.

Lemma fullMinimax_stuck n b isMax :
  calculateEndState b = 0 -> calculateTransitions b isMax = [] ->
  fullMinimax (S n) b isMax = 0.
Proof. intros H E. cbn -[LOSS_SCORE WIN_SCORE]. now rewrite H, E. Qed.

(** At an interior node the reference value is an upper bound of the
    children for the maximizer (a lower bound for the minimizer), and the
    least such. *)
Lemma fullMinimax_max n b :
  calculateEndState b = 0 -> calculateTransitions b true <> [] ->
  (forall t, In t (calculateTransitions b true) ->
             fullMinimax n (applyTransition b t) false <= fullMinimax (S n) b true) /\
  (forall r, (forall t, In t (calculateTransitions b true) ->
                        fullMinimax n (applyTransition b t) false <= r) ->
             fullMinimax (S n) b true <= r).
Proof.
  intros H E. cbn -[LOSS_SCORE WIN_SCORE]. rewrite H. cbn -[LOSS_SCORE WIN_SCORE].
  destruct (calculateTransitions b true) as [|t0 ts]; [congruence|]. cbn [map].
  set (F := fun t => fullMinimax n (applyTransition b t) false).
  destruct (maximum_spec (map F ts) (F t0)) as (H1 & H2 & H3). split.
  - intros t [<-|Ht]; [exact H1|]. apply H2. now apply (in_map F).
  - intros r Hr. apply H3; [apply Hr; now left|].
    intros y Hy. apply in_map_iff in Hy as (t & <- & Ht). apply Hr. now right.
Qed.

Lemma fullMinimax_min n b :
  calculateEndState b = 0 -> calculateTransitions b false <> [] ->
  (forall t, In t (calculateTransitions b false) ->
             fullMinimax (S n) b false <= fullMinimax n (applyTransition b t) true) /\
  (forall r, (forall t, In t (calculateTransitions b false) ->
                        r <= fullMinimax n (applyTransition b t) true) ->
             r <= fullMinimax (S n) b false).
Proof.
  intros H E. cbn -[LOSS_SCORE WIN_SCORE]. rewrite H. cbn -[LOSS_SCORE WIN_SCORE].
  destruct (calculateTransitions b false) as [|t0 ts]; [congruence|]. cbn [map].
  set (F := fun t => fullMinimax n (applyTransition b t) true).
  destruct (minimum_spec (map F ts) (F t0)) as (H1 & H2 & H3). split.
  - intros t [<-|Ht]; [exact H1|]. apply H2. now apply (in_map F).
  - intros r Hr. apply H3; [apply Hr; now left|].
    intros y Hy. apply in_map_iff in Hy as (t & <- & Ht). apply Hr. now right.
Qed.

Lemma fullMinimax_range (Hrange : ScoresInRange) n :
  forall b isMax, NEG_INF <= fullMinimax n b isMax <= POS_INF.
Proof.
  induction n as [|n IH]; intros b isMax; [apply Hrange|].
  destruct (Z.lt_trichotomy (calculateEndState b) 0) as [H|[H|H]].
  - rewrite fullMinimax_lost by assumption. unfold LOSS_SCORE, NEG_INF, POS_INF. lia.
  - destruct (calculateTransitions b isMax) as [|t0 ts] eqn:E.
    + rewrite fullMinimax_stuck by assumption. unfold NEG_INF, POS_INF. lia.
    + assert (Hin : In t0 (calculateTransitions b isMax)) by (rewrite E; now left).
      assert (Hne : calculateTransitions b isMax <> []) by (rewrite E; congruence).
      destruct isMax.
      * destruct (fullMinimax_max n H Hne) as (Hge & Hle). split.
        -- specialize (Hge t0 Hin). specialize (IH (applyTransition b t0) false). lia.
        -- apply Hle. intros t _. apply IH.
      * destruct (fullMinimax_min n H Hne) as (Hge & Hle). split.
        -- apply Hle. intros t _. apply IH.
        -- specialize (Hge t0 Hin). specialize (IH (applyTransition b t0) true). lia.
  - rewrite fullMinimax_won by assumption. unfold WIN_SCORE, NEG_INF, POS_INF. lia.
Qed.

(** *** The window guarantee of the pruned search *)

Lemma update_max t v (f : Frame) :
  (v <= best f /\ best (update true t v f) = best f
   /\ alpha (update true t v f) = alpha f)
  \/ (best f < v /\ best (update true t v f) = v
      /\ alpha (update true t v f) = Z.max (alpha f) v).
Proof.
  unfold update. destruct (Z.eqb_spec v (best f)) as [->|Hne]; cbn.
  - left. repeat split; lia.
  - destruct (Z.gtb_spec v (best f)); cbn; [right | left]; repeat split; lia.
Qed.

Lemma update_min t v (f : Frame) :
  (best f <= v /\ best (update false t v f) = best f
   /\ beta (update false t v f) = beta f)
  \/ (v < best f /\ best (update false t v f) = v
      /\ beta (update false t v f) = Z.min (beta f) v).
Proof.
  unfold update. destruct (Z.eqb_spec v (best f)) as [->|Hne]; cbn.
  - left. repeat split; lia.
  - destruct (Z.ltb_spec v (best f)); cbn; [right | left]; repeat split; lia.
Qed.

Lemma update_max_beta t v (f : Frame) : beta (update true t v f) = beta f.
Proof.
  unfold update. destruct (v =? best f); [reflexivity|].
  cbn. destruct (v >? best f); reflexivity.
Qed.

Lemma update_min_alpha t v (f : Frame) : alpha (update false t v f) = alpha f.
Proof.
  unfold update. destruct (v =? best f); [reflexivity|].
  cbn. destruct (v <? best f); reflexivity.
Qed.

Section Window.

Hypothesis Hundo : ExactUndo.
Hypothesis Hrange : ScoresInRange.

Variable n : nat.
Hypothesis IHn : forall isMax a b (w : World),
  NEG_INF <= a -> a <= b -> b <= POS_INF ->
  WindowSpec a b (valueOf (search n isMax a b w)) (fullMinimax n (board w) isMax).

Lemma loop_max (b0 : T) (rest : list U) :
  (forall t, In t rest -> undoTransition (applyTransition b0 t) t = b0) ->
  forall (f : Frame) (w : World),
  board w = b0 ->
  NEG_INF <= alpha f -> beta f <= POS_INF -> best f <= alpha f ->
  best f <= loopBest n true rest f w /\
  (beta f < loopBest n true rest f w ->
     loopBest n true rest f w = best f \/
     exists t, In t rest /\
       loopBest n true rest f w <= fullMinimax n (applyTransition b0 t) false) /\
  (loopBest n true rest f w <= beta f -> alpha f <= beta f ->
     forall t, In t rest ->
       fullMinimax n (applyTransition b0 t) false <= loopBest n true rest f w) /\
  (loopBest n true rest f w <= beta f -> alpha f <= loopBest n true rest f w ->
     loopBest n true rest f w = best f \/
     exists t, In t rest /\
       fullMinimax n (applyTransition b0 t) false = loopBest n true rest f w).
Proof.
  unfold loopBest.
  induction rest as [|t rest IH]; intros Hu f w Hb Ha Hbt Hbest.
  - cbn. repeat split; try lia; auto; intros; contradiction.
  - rewrite forEach_cons.
    destruct (Z_lt_le_dec (beta f) (alpha f)) as [Hc|Hc].
    + rewrite visit_skip by assumption. cbn [fst snd].
      rewrite forEach_skip by assumption. cbn [fst].
      repeat split; try lia; auto.
    + rewrite visit_enter by assumption. cbn [fst snd].
      set (w1 := snd (callApply applyTransition t w)).
      set (v := valueOf (search n (negb true) (alpha f) (beta f) w1)).
      set (f1 := update true t v f).
      set (w2 := snd (callUndo undoTransition t (snd (search n (negb true) (alpha f) (beta f) w1)))).
      assert (Hw : WindowSpec (alpha f) (beta f) v
                     (fullMinimax n (applyTransition b0 t) false)).
      { subst v. replace (applyTransition b0 t) with (board w1)
          by (subst w1; cbn; now rewrite Hb).
        apply IHn; assumption. }
      assert (Hb2 : board w2 = b0).
      { subst w2. cbn. rewrite search_board by assumption. subst w1. cbn.
        rewrite Hb. apply Hu. now left. }
      destruct Hw as (W1 & W2 & W3).
      assert (Hbeta : beta f1 = beta f) by apply update_max_beta.
      destruct (update_max t v f) as [(Hv & Eb & Ea)|(Hv & Eb & Ea)];
        fold f1 in Eb, Ea;
        (destruct (IH (fun t' H' => Hu t' (or_intror H')) f1 w2 Hb2)
           as (L1 & L2 & L3 & L4); [lia | lia | lia |]);
        set (r := best (fst (forEach (visit (search n) true) rest f1 w2))) in *;
        rewrite Hbeta, Eb, Ea in *.
      * repeat split.
        -- lia.
        -- intros Hr. destruct (L2 Hr) as [E|(t' & Ht' & E)]; [now left|].
           right. exists t'. split; [now right | exact E].
        -- intros Hr Hab t' [<-|Ht']; [|now apply L3].
           destruct (Z_lt_le_dec v (alpha f)); [specialize (W1 ltac:(lia)); lia|].
           specialize (W3 ltac:(lia)). lia.
        -- intros Hr Har. destruct (L4 Hr Har) as [E|(t' & Ht' & E)]; [now left|].
           right. exists t'. split; [now right | exact E].
      * repeat split.
        -- lia.
        -- intros Hr. destruct (L2 Hr) as [E|(t' & Ht' & E)].
           ++ right. exists t. split; [now left|]. specialize (W2 ltac:(lia)). lia.
           ++ right. exists t'. split; [now right | exact E].
        -- intros Hr Hab t' [<-|Ht']; [|apply L3; [lia | lia | exact Ht']].
           destruct (Z_lt_le_dec v (alpha f)); [specialize (W1 ltac:(lia)); lia|].
           specialize (W3 ltac:(lia)). lia.
        -- intros Hr Har. destruct (L4 Hr ltac:(lia)) as [E|(t' & Ht' & E)].
           ++ right. exists t. split; [now left|]. specialize (W3 ltac:(lia)). lia.
           ++ right. exists t'. split; [now right | exact E].
Qed.

Lemma loop_min (b0 : T) (rest : list U) :
  (forall t, In t rest -> undoTransition (applyTransition b0 t) t = b0) ->
  forall (f : Frame) (w : World),
  board w = b0 ->
  NEG_INF <= alpha f -> beta f <= POS_INF -> beta f <= best f ->
  loopBest n false rest f w <= best f /\
  (loopBest n false rest f w < alpha f ->
     loopBest n false rest f w = best f \/
     exists t, In t rest /\
       fullMinimax n (applyTransition b0 t) true <= loopBest n false rest f w) /\
  (alpha f <= loopBest n false rest f w -> alpha f <= beta f ->
     forall t, In t rest ->
       loopBest n false rest f w <= fullMinimax n (applyTransition b0 t) true) /\
  (alpha f <= loopBest n false rest f w -> loopBest n false rest f w <= beta f ->
     loopBest n false rest f w = best f \/
     exists t, In t rest /\
       fullMinimax n (applyTransition b0 t) true = loopBest n false rest f w).
Proof.
  unfold loopBest.
  induction rest as [|t rest IH]; intros Hu f w Hb Ha Hbt Hbest.
  - cbn. repeat split; try lia; auto; intros; contradiction.
  - rewrite forEach_cons.
    destruct (Z_lt_le_dec (beta f) (alpha f)) as [Hc|Hc].
    + rewrite visit_skip by assumption. cbn [fst snd].
      rewrite forEach_skip by assumption. cbn [fst].
      repeat split; try lia; auto.
    + rewrite visit_enter by assumption. cbn [fst snd].
      set (w1 := snd (callApply applyTransition t w)).
      set (v := valueOf (search n (negb false) (alpha f) (beta f) w1)).
      set (f1 := update false t v f).
      set (w2 := snd (callUndo undoTransition t (snd (search n (negb false) (alpha f) (beta f) w1)))).
      assert (Hw : WindowSpec (alpha f) (beta f) v
                     (fullMinimax n (applyTransition b0 t) true)).
      { subst v. replace (applyTransition b0 t) with (board w1)
          by (subst w1; cbn; now rewrite Hb).
        apply IHn; assumption. }
      assert (Hb2 : board w2 = b0).
      { subst w2. cbn. rewrite search_board by assumption. subst w1. cbn.
        rewrite Hb. apply Hu. now left. }
      destruct Hw as (W1 & W2 & W3).
      assert (Halpha : alpha f1 = alpha f) by apply update_min_alpha.
      destruct (update_min t v f) as [(Hv & Eb & Ea)|(Hv & Eb & Ea)];
        fold f1 in Eb, Ea;
        (destruct (IH (fun t' H' => Hu t' (or_intror H')) f1 w2 Hb2)
           as (L1 & L2 & L3 & L4); [lia | lia | lia |]);
        set (r := best (fst (forEach (visit (search n) false) rest f1 w2))) in *;
        rewrite Halpha, Eb, Ea in *.
      * repeat split.
        -- lia.
        -- intros Hr. destruct (L2 Hr) as [E|(t' & Ht' & E)]; [now left|].
           right. exists t'. split; [now right | exact E].
        -- intros Hr Hab t' [<-|Ht']; [|now apply L3].
           destruct (Z_lt_le_dec (beta f) v); [specialize (W2 ltac:(lia)); lia|].
           specialize (W3 ltac:(lia)). lia.
        -- intros Hr Har. destruct (L4 Hr Har) as [E|(t' & Ht' & E)]; [now left|].
           right. exists t'. split; [now right | exact E].
      * repeat split.
        -- lia.
        -- intros Hr. destruct (L2 Hr) as [E|(t' & Ht' & E)].
           ++ right. exists t. split; [now left|]. specialize (W1 ltac:(lia)). lia.
           ++ right. exists t'. split; [now right | exact E].
        -- intros Hr Hab t' [<-|Ht']; [|apply L3; [lia | lia | exact Ht']].
           destruct (Z_lt_le_dec (beta f) v); [specialize (W2 ltac:(lia)); lia|].
           specialize (W3 ltac:(lia)). lia.
        -- intros Hr Har. destruct (L4 Hr ltac:(lia)) as [E|(t' & Ht' & E)].
           ++ right. exists t. split; [now left|]. specialize (W3 ltac:(lia)). lia.
           ++ right. exists t'. split; [now right | exact E].
Qed.

End Window.

Lemma search_window (Hundo : ExactUndo) (Hrange : ScoresInRange) n :
  forall isMax a b (w : World),
  NEG_INF <= a -> a <= b -> b <= POS_INF ->
  WindowSpec a b (valueOf (search n isMax a b w)) (fullMinimax n (board w) isMax).
Proof.
  induction n as [|n IH]; intros isMax a b w Ha Hab Hb.
  - rewrite search_leaf. unfold WindowSpec, valueOf. cbn. lia.
  - destruct (Z.lt_trichotomy (calculateEndState (board w)) 0) as [H|[H|H]].
    + rewrite search_lost, fullMinimax_lost by assumption.
      unfold WindowSpec, valueOf. cbn [fst snd]. lia.
    + destruct (calculateTransitions (board w) isMax) as [|t0 ts] eqn:E.
      * rewrite search_stuck, fullMinimax_stuck by assumption.
        unfold WindowSpec, valueOf. cbn [fst snd]. lia.
      * assert (Hne : calculateTransitions (board w) isMax <> [])
          by (rewrite E; congruence).
        assert (Hin : In t0 (calculateTransitions (board w) isMax))
          by (rewrite E; now left).
        rewrite search_interior by assumption. cbv zeta.
        rewrite selectResult_value.
        pose proof (fullMinimax_range Hrange n) as Hr.
        assert (Hu : forall t, In t (calculateTransitions (board w) isMax) ->
                     undoTransition (applyTransition (board w) t) t = board w)
          by (intros t Ht; exact (Hundo _ _ _ Ht)).
        destruct isMax.
        -- destruct (fullMinimax_max n H Hne) as (Fge & Fle).
           destruct (loop_max Hundo n IH _ Hu (rootFrame true a b) (entered true w)
                       eq_refl Ha Hb Ha) as (L1 & L2 & L3 & L4).
           unfold loopBest in *.
           set (r := best (fst (forEach (visit (search n) true) _ _ _))) in *.
           set (F := fullMinimax (S n) (board w) true) in *.
           clearbody r F. cbn [rootFrame best alpha beta] in *.
           repeat split.
           ++ intros Hlt. apply Fle. apply L3; lia.
           ++ intros Hlt. destruct (L2 Hlt) as [E'|(t & Ht & E')]; [lia|].
              exact (Z.le_trans _ _ _ E' (Fge t Ht)).
           ++ intros Hlt. assert (F <= r)
                by (apply Fle; apply L3; lia).
              apply Z.le_antisymm; [assumption|].
              destruct (L4 ltac:(lia) ltac:(lia)) as [E'|(t & Ht & E')].
              ** rewrite E'. apply Z.le_trans with (2 := Fge t0 Hin). apply Hr.
              ** rewrite <- E'. exact (Fge t Ht).
        -- destruct (fullMinimax_min n H Hne) as (Fge & Fle).
           destruct (loop_min Hundo n IH _ Hu (rootFrame false a b) (entered false w)
                       eq_refl Ha Hb Hb) as (L1 & L2 & L3 & L4).
           unfold loopBest in *.
           set (r := best (fst (forEach (visit (search n) false) _ _ _))) in *.
           set (F := fullMinimax (S n) (board w) false) in *.
           clearbody r F. cbn [rootFrame best alpha beta] in *.
           repeat split.
           ++ intros Hlt. destruct (L2 Hlt) as [E'|(t & Ht & E')]; [lia|].
              exact (Z.le_trans _ _ _ (Fge t Ht) E').
           ++ intros Hlt. apply Fle. apply L3; lia.
           ++ intros Hlt. assert (r <= F)
                by (apply Fle; apply L3; lia).
              apply Z.le_antisymm; [|assumption].
              destruct (L4 ltac:(lia) ltac:(lia)) as [E'|(t & Ht & E')].
              ** rewrite E'. apply Z.le_trans with (1 := Fge t0 Hin). apply Hr.
              ** rewrite <- E'. exact (Fge t Ht).
    + rewrite search_won, fullMinimax_won by assumption.
      unfold WindowSpec, valueOf. cbn [fst snd]. lia.
Qed.

(** C1 (amended). Alpha-beta equivalence: for every board, callbacks and
    [maxDepth] such that undo exactly inverts apply and every score of
    [calculateBoard] lies within the sentinels -9e9 and 9e9, the value the
    engine computes at the root with alpha = -9e9 and beta = 9e9 equals the
    value of the exhaustive minimax over the same tree. *)
Theorem alpha_beta_equals_full_minimax
    (Hundo : ExactUndo) (Hrange : ScoresInRange) (maxDepth : nat) (w : World) :
  valueOf (runMinimaxAlgorithm 0 maxDepth true NEG_INF POS_INF w)
  = fullMinimax maxDepth (board w) true.
Proof.
  unfold runMinimaxAlgorithm. rewrite Nat.sub_0_r.
  destruct (@search_window Hundo Hrange maxDepth true NEG_INF POS_INF w)
    as (W1 & W2 & W3); [lia | unfold NEG_INF, POS_INF; lia | lia |].
  pose proof (fullMinimax_range Hrange maxDepth (board w) true) as Hr.
  set (r := valueOf _) in *. set (F := fullMinimax _ _ _) in *.
  destruct (Z_lt_le_dec r NEG_INF); [specialize (W1 ltac:(lia)); lia|].
  destruct (Z_lt_le_dec POS_INF r); [specialize (W2 ltac:(lia)); lia|].
  symmetry. apply W3. lia.
Qed.

(** C2. Board restoration: when every undo of a generated transition exactly
    inverts its apply, the board content after [Minimax] equals the board
    content before it, for every board and every [maxDepth]; and the calls
    the search makes form a bracketed log: every apply is closed by the undo
    of the same transition before the level that applied it returns, pruned
    siblings or not.  The only call after the search is the print of the
    value. *)
Theorem Minimax_restores_board (Hundo : ExactUndo) (maxDepth : nat) (w : World) :
  board (snd (Minimax maxDepth w)) = board w /\
  exists evs,
    trace (snd (Minimax maxDepth w)) =
      trace w ++ evs
      ++ [EPrint (valueOf (runMinimaxAlgorithm 0 maxDepth true NEG_INF POS_INF w))]
    /\ Bracketed evs.
Proof.
  split.
  - unfold Minimax, bind. cbn -[NEG_INF POS_INF].
    apply search_board. exact Hundo.
  - destruct (search_extends (maxDepth - 0) true NEG_INF POS_INF w) as (evs & E & B).
    exists evs. split; [|exact B].
    unfold Minimax, bind. cbn -[NEG_INF POS_INF].
    unfold runMinimaxAlgorithm in *. rewrite E. now rewrite app_assoc.
Qed.

(** *** Terminal nodes *)

(** C3 (amended). At every node with [depth < maxDepth], the root included,
    a negative end state makes the engine return no transition and
    [LOSS_SCORE], a positive one no transition and [WIN_SCORE], whatever the
    generated transitions are.  [LOSS_SCORE] is -9e9 + 1 and [WIN_SCORE] is
    9e9 - 1, one unit inside the sentinels, so every score strictly between
    -9e9 + 1 and 9e9 - 1 lies strictly between the two. *)
Theorem end_state_terminal depth maxDepth isMax a b (w : World) :
  (depth < maxDepth)%nat ->
  (calculateEndState (board w) < 0 ->
     fst (runMinimaxAlgorithm depth maxDepth isMax a b w) = (None, LOSS_SCORE)) /\
  (0 < calculateEndState (board w) ->
     fst (runMinimaxAlgorithm depth maxDepth isMax a b w) = (None, WIN_SCORE)) /\
  LOSS_SCORE = -9000000000 + 1 /\ WIN_SCORE = 9000000000 - 1 /\
  LOSS_SCORE = NEG_INF + 1 /\ WIN_SCORE = POS_INF - 1 /\
  (forall h, -9000000000 + 1 < h < 9000000000 - 1 -> LOSS_SCORE < h < WIN_SCORE).
Proof.
  intros H. destruct (runMinimaxAlgorithm_interior H) as (n & E & _).
  unfold runMinimaxAlgorithm. rewrite E. repeat split.
  - intros Hl. now rewrite search_lost.
  - intros Hw. now rewrite search_won.
  - unfold LOSS_SCORE, NEG_INF. lia.
  - unfold WIN_SCORE, POS_INF. lia.
Qed.

(** C4. Depth-zero identity: with [maxDepth = 0] the search returns no
    transition, the engine's value is [calculateBoard board], and the board
    is unchanged; the only calls are that evaluation and the print, so no
    transition is applied. *)
Theorem depth_zero_identity (w : World) :
  fst (Minimax 0 w) = None /\
  fst (runMinimaxAlgorithm 0 0 true NEG_INF POS_INF w)
    = (None, calculateBoard (board w)) /\
  board (snd (Minimax 0 w)) = board w /\
  trace (snd (Minimax 0 w)) =
    trace w ++ [ECalcBoard (board w); EPrint (calculateBoard (board w))].
Proof.
  repeat split. cbn. now rewrite <- app_assoc.
Qed.

(** C6. No-moves terminal: at every node with [depth < maxDepth] whose end
    state is 0 and whose generated transition list is empty, the engine
    returns no transition and the value 0. *)
Theorem no_moves_terminal depth maxDepth isMax a b (w : World) :
  (depth < maxDepth)%nat ->
  calculateEndState (board w) = 0 ->
  calculateTransitions (board w) isMax = [] ->
  fst (runMinimaxAlgorithm depth maxDepth isMax a b w) = (None, 0).
Proof.
  intros H He Ht. destruct (runMinimaxAlgorithm_interior H) as (n & E & _).
  unfold runMinimaxAlgorithm. rewrite E. now rewrite search_stuck.
Qed.

(** C7 (amended). At every node with [depth < maxDepth], the root included,
    the generator is called first and the end-state check right after it,
    both on the node's board; when the end state is nonzero these two calls
    are all the node does: the generated list is dropped, no transition is
    applied and nothing else is called. *)
Theorem generation_precedes_end_state_check depth maxDepth isMax a b (w : World) :
  (depth < maxDepth)%nat ->
  exists evs,
    trace (snd (runMinimaxAlgorithm depth maxDepth isMax a b w)) =
      trace w ++ ECalcTransitions (board w) isMax
              :: ECalcEndState (board w) :: evs /\
    (calculateEndState (board w) <> 0 -> evs = []).
Proof.
  intros H. destruct (runMinimaxAlgorithm_interior H) as (n & E & _).
  unfold runMinimaxAlgorithm. rewrite E.
  assert (Hent : trace (entered isMax w) =
                 trace w ++ [ECalcTransitions (board w) isMax; ECalcEndState (board w)])
    by (cbn; now rewrite <- app_assoc).
  destruct (Z.lt_trichotomy (calculateEndState (board w)) 0) as [Hs|[Hs|Hs]].
  - exists []. rewrite search_lost by assumption. now split.
  - destruct (calculateTransitions (board w) isMax) as [|t ts] eqn:Et.
    + exists []. rewrite search_stuck by assumption. now split.
    + rewrite search_interior by (rewrite ?Et; congruence). cbv zeta. rewrite Et.
      pose proof (forEach_extends (search n) isMax (t :: ts)
                    (rootFrame isMax a b) (entered isMax w)
                    (search_extends n)) as X.
      pose proof (selectResult_extends
                    (fst (forEach (visit (search n) isMax) (t :: ts)
                            (rootFrame isMax a b) (entered isMax w)))
                    (snd (forEach (visit (search n) isMax) (t :: ts)
                            (rootFrame isMax a b) (entered isMax w)))) as Y.
      destruct (Extends_trans X Y) as (evs & Ev & _).
      exists evs. split; [|lia].
      rewrite Ev, Hent, <- app_assoc. reflexivity.
  - exists []. rewrite search_won by assumption. now split.
Qed.

(** C8. [Minimax] returns a transition only when the root has a legal move
    to search: when [maxDepth] is 0 (the root is a depth-limit leaf), or the
    root's end state is nonzero, or the generator returns no transition for
    the root, the returned transition is absent. *)
Theorem no_transition_without_moves maxDepth (w : World) :
  maxDepth = 0%nat \/ calculateEndState (board w) <> 0
  \/ calculateTransitions (board w) true = [] ->
  fst (Minimax maxDepth w) = None.
Proof.
  intros H. unfold Minimax, bind. cbn -[NEG_INF POS_INF]. unfold runMinimaxAlgorithm.
  rewrite Nat.sub_0_r. destruct maxDepth as [|n]; [reflexivity|].
  destruct (Z.lt_trichotomy (calculateEndState (board w)) 0) as [Hs|[Hs|Hs]].
  - now rewrite search_lost.
  - destruct H as [H|[H|H]]; [discriminate | congruence |].
    now rewrite search_stuck.
  - now rewrite search_won.
Qed.

(** *** The tie-break set *)

Lemma update_cases isMax t v (f : Frame) :
  update isMax t v f
    = mkFrame (best f) (bestTransitions f ++ [t]) (alpha f) (beta f) /\ v = best f
  \/ (exists a b, update isMax t v f = mkFrame v [t] a b)
  \/ update isMax t v f = f.
Proof.
  unfold update. destruct (Z.eqb_spec v (best f)) as [E|E]; [now left|]. right.
  destruct ((isMax && (v >? best f)) || (negb isMax && (v <? best f))); [left | now right].
  destruct isMax; eauto.
Qed.

Lemma update_keeps isMax t v (f : Frame) :
  bestTransitions f <> [] -> bestTransitions (update isMax t v f) <> [].
Proof.
  intros H. destruct (update_cases isMax t v f) as [(E & _)|[(a & b & E)|E]];
    rewrite E; cbn; [|discriminate | exact H].
  destruct (bestTransitions f); [congruence | discriminate].
Qed.

Lemma selectResult_pick (f : Frame) (w : World) :
  bestTransitions f <> [] ->
  exists t,
    fst (selectResult f w) = (Some t, best f) /\
    nth_error (bestTransitions f)
              (Nat.modulo (rng w 0%nat) (length (bestTransitions f))) = Some t /\
    In t (bestTransitions f).
Proof.
  intros H. unfold selectResult.
  destruct (bestTransitions f) as [|t0 l] eqn:E; [congruence|].
  cbn [length Nat.eqb]. unfold bind, math_random. cbn [fst snd].
  replace (S (length l) - 1 - 0 + 1)%nat with (S (length l)) by lia.
  cbn [Nat.add].
  destruct (nth_error (t0 :: l) (Nat.modulo (rng w 0%nat) (S (length l)))) as [t|] eqn:N.
  - exists t. repeat split. eapply nth_error_In, N.
  - apply nth_error_None in N. cbn [length] in N.
    pose proof (Nat.mod_upper_bound (rng w 0%nat) (S (length l))). lia.
Qed.

Lemma selectResult_from_set (f : Frame) (w : World) t :
  transitionOf (selectResult f w) = Some t -> In t (bestTransitions f).
Proof.
  unfold selectResult, transitionOf.
  destruct (length (bestTransitions f) =? 0)%nat; [discriminate|].
  unfold bind. cbn [fst snd]. apply nth_error_In.
Qed.

Section Ties.

Variable rec : bool -> Z -> Z -> M (option U * Z).
Variable isMax : bool.
Variable all : list U.

Abbreviation Achieves := (Achieves applyTransition rec isMax all).

Lemma visit_achieves t (f : Frame) (w : World) :
  In t all -> Achieves f -> Achieves (fst (visit rec isMax t f w)).
Proof.
  intros Ht Hf.
  destruct (Z_lt_le_dec (beta f) (alpha f)) as [Hc|Hc].
  - now rewrite visit_skip.
  - rewrite visit_enter by assumption. cbn [fst].
    set (v := valueOf _).
    destruct (update_cases isMax t v f) as [(E & Ev)|[(a & b & E)|E]]; rewrite E.
    + intros t' Hin. cbn in Hin. apply in_app_or in Hin as [Hin|[<-|[]]].
      * exact (Hf t' Hin).
      * split; [exact Ht|]. cbn [best]. rewrite <- Ev. subst v. eauto.
    + intros t' [<-|[]]. split; [exact Ht|]. cbn [best]. subst v. eauto.
    + exact Hf.
Qed.

Lemma forEach_achieves rest : forall (f : Frame) (w : World),
  (forall t, In t rest -> In t all) -> Achieves f ->
  Achieves (fst (forEach (visit rec isMax) rest f w)).
Proof.
  induction rest as [|t rest IH]; intros f w Hall Hf; [exact Hf|].
  rewrite forEach_cons. apply IH.
  - intros t' H'. apply Hall. now right.
  - apply visit_achieves; [apply Hall; now left | exact Hf].
Qed.

Lemma visit_keeps t (f : Frame) (w : World) :
  bestTransitions f <> [] -> bestTransitions (fst (visit rec isMax t f w)) <> [].
Proof.
  intros Hf. destruct (Z_lt_le_dec (beta f) (alpha f)) as [Hc|Hc].
  - now rewrite visit_skip.
  - rewrite visit_enter by assumption. now apply update_keeps.
Qed.

Lemma forEach_keeps rest : forall (f : Frame) (w : World),
  bestTransitions f <> [] ->
  bestTransitions (fst (forEach (visit rec isMax) rest f w)) <> [].
Proof.
  induction rest as [|t rest IH]; intros f w Hf; [exact Hf|].
  rewrite forEach_cons. apply IH. now apply visit_keeps.
Qed.

End Ties.




(** *** The root always finds a candidate *)

Lemma update_best isMax t v (f : Frame) :
  best (update isMax t v f) = best f \/ best (update isMax t v f) = v.
Proof.
  destruct (update_cases isMax t v f) as [(E & _)|[(a & b & E)|E]];
    rewrite E; cbn; auto.
Qed.

Lemma forEach_above (rec : bool -> Z -> Z -> M (option U * Z)) isMax rest :
  (forall m a b w, NEG_INF <= valueOf (rec m a b w)) ->
  forall (f : Frame) (w : World),
  NEG_INF <= best f ->
  NEG_INF <= best (fst (forEach (visit rec isMax) rest f w)).
Proof.
  intros Hrec. induction rest as [|t rest IH]; intros f w Hf; [exact Hf|].
  rewrite forEach_cons. apply IH.
  destruct (Z_lt_le_dec (beta f) (alpha f)) as [Hc|Hc].
  - now rewrite visit_skip.
  - rewrite visit_enter by assumption. cbn [fst].
    set (v := valueOf _).
    assert (NEG_INF <= v) by apply Hrec.
    destruct (update_best isMax t v f) as [E|E]; rewrite E; assumption.
Qed.

Lemma search_above (Hlow : ScoresAboveNegInf) n :
  forall isMax a b (w : World), NEG_INF <= valueOf (search n isMax a b w).
Proof.
  induction n as [|n IH]; intros isMax a b w; [apply Hlow|].
  destruct (Z.lt_trichotomy (calculateEndState (board w)) 0) as [H|[H|H]].
  - rewrite search_lost by assumption. unfold valueOf, LOSS_SCORE, NEG_INF. cbn [fst snd]. lia.
  - destruct (calculateTransitions (board w) isMax) as [|t ts] eqn:E.
    + rewrite search_stuck by assumption. unfold valueOf, NEG_INF. cbn [fst snd]. lia.
    + rewrite search_interior by (rewrite ?E; congruence). cbv zeta.
      rewrite selectResult_value. apply forEach_above; [exact IH|].
      unfold rootFrame. destruct isMax; cbn [best]; unfold NEG_INF, POS_INF; lia.
  - rewrite search_won by assumption. unfold valueOf, WIN_SCORE, NEG_INF, POS_INF. cbn [fst snd]. lia.
Qed.

(** C9 (amended). When no score of [calculateBoard] is below -9e9,
    [maxDepth >= 1], the root's end state is 0 and the generator returns a
    non-empty list for the root, [Minimax] returns a defined transition, and
    it is an element of that list: with the initial bounds the first root
    child is searched and enters the tie-break set, which never becomes
    empty again. *)
Theorem root_returns_generated_transition
    (Hlow : ScoresAboveNegInf) maxDepth (w : World) :
  (1 <= maxDepth)%nat ->
  calculateEndState (board w) = 0 ->
  calculateTransitions (board w) true <> [] ->
  exists t, fst (Minimax maxDepth w) = Some t
            /\ In t (calculateTransitions (board w) true).
Proof.
  intros Hd He Ht.
  unfold Minimax, bind. cbn -[NEG_INF POS_INF]. unfold runMinimaxAlgorithm.
  rewrite Nat.sub_0_r. destruct maxDepth as [|n]; [lia|].
  rewrite search_interior by assumption. cbv zeta.
  set (ts := calculateTransitions (board w) true) in *.
  set (f := fst (forEach _ ts _ _)). set (w' := snd (forEach _ ts _ _)).
  assert (Hne : bestTransitions f <> []).
  { subst f. destruct ts as [|t0 rest]; [congruence|].
    rewrite forEach_cons. apply forEach_keeps.
    rewrite visit_enter by (cbn; unfold NEG_INF, POS_INF; lia). cbn [fst].
    set (v := valueOf _).
    assert (Hv : NEG_INF <= v) by apply (search_above Hlow).
    destruct (Z.eq_dec v NEG_INF) as [E|E].
    - unfold update. cbn [rootFrame best]. rewrite E, Z.eqb_refl. cbn. discriminate.
    - unfold update. cbn [rootFrame best].
      destruct (Z.eqb_spec v NEG_INF); [contradiction|].
      destruct (Z.gtb_spec v NEG_INF); [cbn; discriminate | lia]. }
  destruct (selectResult_pick f w' Hne) as (t & E & _ & Hin).
  exists t. rewrite E. split; [reflexivity|].
  subst f.
  apply (@forEach_achieves (search n) true ts ts
           (rootFrame true NEG_INF POS_INF) (entered true w));
    [auto | intros t' [] | exact Hin].
Qed.

(** *** The draws do not influence the value *)

Lemma selectResult_same (f : Frame) (w1 w2 : World) :
  SameButRng w1 w2 ->
  valueOf (selectResult f w1) = valueOf (selectResult f w2) /\
  (transitionOf (selectResult f w1) = None
   <-> transitionOf (selectResult f w2) = None) /\
  SameButRng (snd (selectResult f w1)) (snd (selectResult f w2)).
Proof.
  intros (Hb & Ht). rewrite !selectResult_value. split; [reflexivity|].
  destruct (bestTransitions f) as [|t0 l] eqn:E.
  - unfold selectResult. rewrite E. cbn. repeat split; auto.
  - destruct (selectResult_pick f w1) as (t1 & E1 & _); [rewrite E; discriminate|].
    destruct (selectResult_pick f w2) as (t2 & E2 & _); [rewrite E; discriminate|].
    unfold transitionOf. rewrite E1, E2. cbn [fst]. split; [split; discriminate|].
    unfold selectResult. rewrite E. cbn. split; [exact Hb | now rewrite Ht].
Qed.

Lemma forEach_same (rec : bool -> Z -> Z -> M (option U * Z)) isMax rest :
  (forall m a b w1 w2, SameButRng w1 w2 ->
     valueOf (rec m a b w1) = valueOf (rec m a b w2)
     /\ SameButRng (snd (rec m a b w1)) (snd (rec m a b w2))) ->
  forall (f : Frame) (w1 w2 : World),
  SameButRng w1 w2 ->
  fst (forEach (visit rec isMax) rest f w1)
    = fst (forEach (visit rec isMax) rest f w2) /\
  SameButRng (snd (forEach (visit rec isMax) rest f w1))
             (snd (forEach (visit rec isMax) rest f w2)).
Proof.
  intros Hrec. induction rest as [|t rest IH]; intros f w1 w2 Hw; [now split|].
  rewrite !forEach_cons.
  destruct (Z_lt_le_dec (beta f) (alpha f)) as [Hc|Hc].
  - rewrite !visit_skip by assumption. now apply IH.
  - rewrite !visit_enter by assumption. cbn [fst snd].
    destruct Hw as (Hb & Ht).
    destruct (Hrec (negb isMax) (alpha f) (beta f)
                (snd (callApply applyTransition t w1))
                (snd (callApply applyTransition t w2))) as (Ev & Eb & Et).
    { split; cbn; [now rewrite Hb | now rewrite Hb, Ht]. }
    rewrite Ev. apply IH.
    split; unfold callUndo; cbn [snd board trace]; [now rewrite Eb | now rewrite Eb, Et].
Qed.

Lemma search_same n : forall isMax a b (w1 w2 : World),
  SameButRng w1 w2 ->
  valueOf (search n isMax a b w1) = valueOf (search n isMax a b w2) /\
  (transitionOf (search n isMax a b w1) = None
   <-> transitionOf (search n isMax a b w2) = None) /\
  SameButRng (snd (search n isMax a b w1)) (snd (search n isMax a b w2)).
Proof.
  induction n as [|n IH]; intros isMax a b w1 w2 Hw.
  - destruct Hw as (Hb & Ht). rewrite !search_leaf.
    unfold valueOf, transitionOf, SameButRng, record. cbn [fst snd board trace].
    rewrite Hb, Ht. repeat split; auto.
  - assert (Hent : SameButRng (entered isMax w1) (entered isMax w2))
      by (destruct Hw as (Hb & Ht); split; cbn; [exact Hb | now rewrite Hb, Ht]).
    destruct Hw as (Hb & Ht).
    destruct (Z.lt_trichotomy (calculateEndState (board w1)) 0) as [H|[H|H]].
    + rewrite !search_lost by (rewrite <- ?Hb; assumption).
      unfold valueOf, transitionOf. cbn [fst snd]. repeat split; auto; apply Hent.
    + destruct (calculateTransitions (board w1) isMax) as [|t ts] eqn:E.
      * rewrite !search_stuck by (rewrite <- ?Hb; assumption).
        unfold valueOf, transitionOf. cbn [fst snd]. repeat split; auto; apply Hent.
      * rewrite !search_interior by (rewrite <- ?Hb, ?E; congruence). cbv zeta.
        rewrite <- Hb.
        destruct (@forEach_same (search n) isMax
                    (calculateTransitions (board w1) isMax)
                    (fun m a' b' x1 x2 Hx =>
                       conj (proj1 (IH m a' b' x1 x2 Hx))
                            (proj2 (proj2 (IH m a' b' x1 x2 Hx))))
                    (rootFrame isMax a b) _ _ Hent) as (Ef & Ew).
        rewrite Ef. now apply selectResult_same.
    + rewrite !search_won by (rewrite <- ?Hb; assumption).
      unfold valueOf, transitionOf. cbn [fst snd]. repeat split; auto; apply Hent.
Qed.

(** C10. Two runs of the search on the same board, callbacks, depth and
    log that differ only in the outcomes the generator draws compute the
    same value, return a transition in the one exactly when in the other,
    leave the same board and make the same external calls; only the
    transition that is picked can differ. *)
Theorem draws_only_choose_the_transition
    maxDepth (b0 : T) (log : list (Event T U)) (draws1 draws2 : nat -> nat) :
  valueOf (runMinimaxAlgorithm 0 maxDepth true NEG_INF POS_INF
             (mkWorld b0 draws1 log))
  = valueOf (runMinimaxAlgorithm 0 maxDepth true NEG_INF POS_INF
               (mkWorld b0 draws2 log)) /\
  (fst (Minimax maxDepth (mkWorld b0 draws1 log)) = None
   <-> fst (Minimax maxDepth (mkWorld b0 draws2 log)) = None) /\
  board (snd (Minimax maxDepth (mkWorld b0 draws1 log)))
  = board (snd (Minimax maxDepth (mkWorld b0 draws2 log))) /\
  trace (snd (Minimax maxDepth (mkWorld b0 draws1 log)))
  = trace (snd (Minimax maxDepth (mkWorld b0 draws2 log))).
Proof.
  destruct (@search_same (maxDepth - 0) true NEG_INF POS_INF
              (mkWorld b0 draws1 log) (mkWorld b0 draws2 log))
    as (Ev & Et & Eb & El); [now split|].
  unfold Minimax, bind, runMinimaxAlgorithm. cbn -[NEG_INF POS_INF Nat.sub].
  repeat split; try apply Et; try assumption.
  fold (valueOf (search (maxDepth - 0) true NEG_INF POS_INF (mkWorld b0 draws1 log))).
  fold (valueOf (search (maxDepth - 0) true NEG_INF POS_INF (mkWorld b0 draws2 log))).
  now rewrite El, Ev.
Qed.

(** ** Further properties of the engine *)

Abbreviation optimalMoves :=
  (optimalMoves calculateTransitions applyTransition
                calculateBoard calculateEndState).
Abbreviation NodeLog := (NodeLog calculateTransitions applyTransition).
Abbreviation ChildrenLog := (ChildrenLog calculateTransitions applyTransition).

(** X1. Fail-soft window guarantee of [runMinimaxAlgorithm] at every node
    with [depth <= maxDepth]: with exact undo, scores inside the sentinels and bounds
    -9e9 <= alpha <= beta <= 9e9, a returned value below alpha is an upper
    bound of the node's exhaustive minimax value, a value above beta is a
    lower bound of it, and a value inside [alpha .. beta] is that value. *)
Theorem window_guarantee
    (Hundo : ExactUndo) (Hrange : ScoresInRange)
    depth maxDepth isMax a b (w : World) :
  (depth <= maxDepth)%nat ->
  NEG_INF <= a -> a <= b -> b <= POS_INF ->
  (valueOf (runMinimaxAlgorithm depth maxDepth isMax a b w) < a ->
     fullMinimax (maxDepth - depth) (board w) isMax
     <= valueOf (runMinimaxAlgorithm depth maxDepth isMax a b w)) /\
  (b < valueOf (runMinimaxAlgorithm depth maxDepth isMax a b w) ->
     valueOf (runMinimaxAlgorithm depth maxDepth isMax a b w)
     <= fullMinimax (maxDepth - depth) (board w) isMax) /\
  (a <= valueOf (runMinimaxAlgorithm depth maxDepth isMax a b w) <= b ->
     fullMinimax (maxDepth - depth) (board w) isMax
     = valueOf (runMinimaxAlgorithm depth maxDepth isMax a b w)).
Proof.
  intros _ Ha Hab Hb.
  exact (@search_window Hundo Hrange (maxDepth - depth) isMax a b w Ha Hab Hb).
Qed.

Lemma forEach_within (rec : bool -> Z -> Z -> M (option U * Z)) isMax rest :
  (forall m a b w, NEG_INF <= valueOf (rec m a b w) <= POS_INF) ->
  forall (f : Frame) (w : World),
  NEG_INF <= best f <= POS_INF ->
  NEG_INF <= best (fst (forEach (visit rec isMax) rest f w)) <= POS_INF.
Proof.
  intros Hrec. induction rest as [|t rest IH]; intros f w Hf; [exact Hf|].
  rewrite forEach_cons. apply IH.
  destruct (Z_lt_le_dec (beta f) (alpha f)) as [Hc|Hc].
  - now rewrite visit_skip.
  - rewrite visit_enter by assumption. cbn [fst].
    set (v := valueOf _).
    assert (NEG_INF <= v <= POS_INF) by apply Hrec.
    destruct (update_best isMax t v f) as [E|E]; rewrite E; assumption.
Qed.

(** X2. Whatever the bounds, the role and the depth, an engine run over
    scores that lie inside the sentinels returns a value inside the
    sentinels. *)
Theorem value_within_sentinels
    (Hrange : ScoresInRange) depth maxDepth isMax a b (w : World) :
  NEG_INF <= valueOf (runMinimaxAlgorithm depth maxDepth isMax a b w) <= POS_INF.
Proof.
  unfold runMinimaxAlgorithm. generalize (maxDepth - depth)%nat as n. clear depth maxDepth.
  intros n. revert isMax a b w.
  induction n as [|n IH]; intros isMax a b w; [apply Hrange|].
  destruct (Z.lt_trichotomy (calculateEndState (board w)) 0) as [H|[H|H]].
  - rewrite search_lost by assumption.
    unfold valueOf, LOSS_SCORE, NEG_INF, POS_INF. cbn [fst snd]. lia.
  - destruct (calculateTransitions (board w) isMax) as [|t ts] eqn:E.
    + rewrite search_stuck by assumption.
      unfold valueOf, NEG_INF, POS_INF. cbn [fst snd]. lia.
    + rewrite search_interior by (rewrite ?E; congruence). cbv zeta.
      rewrite selectResult_value. apply forEach_within; [exact IH|].
      unfold rootFrame. destruct isMax; cbn [best]; unfold NEG_INF, POS_INF; lia.
  - rewrite search_won by assumption.
    unfold valueOf, WIN_SCORE, NEG_INF, POS_INF. cbn [fst snd]. lia.
Qed.

Lemma root_value_exact (Hundo : ExactUndo) (Hrange : ScoresInRange) n isMax (w : World) :
  valueOf (search n isMax NEG_INF POS_INF w) = fullMinimax n (board w) isMax.
Proof.
  destruct (@search_window Hundo Hrange n isMax NEG_INF POS_INF w)
    as (W1 & W2 & W3); [lia | unfold NEG_INF, POS_INF; lia | lia |].
  pose proof (fullMinimax_range Hrange n (board w) isMax) as Hr.
  set (r := valueOf _) in *. set (F := fullMinimax _ _ _) in *. clearbody r F.
  destruct (Z_lt_le_dec r NEG_INF); [specialize (W1 ltac:(lia)); lia|].
  destruct (Z_lt_le_dec POS_INF r); [specialize (W2 ltac:(lia)); lia|].
  symmetry. apply W3. lia.
Qed.

(** X6. A win one move away is seen when the search looks two levels deep:
    with exact undo, scores inside the sentinels, [maxDepth >= 2] and a
    neutral root, if some generated root transition leads to a board whose
    end state is positive, the root value is at least [WIN_SCORE]. *)
Theorem immediate_win_is_found
    (Hundo : ExactUndo) (Hrange : ScoresInRange) maxDepth (w : World) t :
  (2 <= maxDepth)%nat ->
  calculateEndState (board w) = 0 ->
  In t (calculateTransitions (board w) true) ->
  0 < calculateEndState (applyTransition (board w) t) ->
  WIN_SCORE <= valueOf (runMinimaxAlgorithm 0 maxDepth true NEG_INF POS_INF w).
Proof.
  intros Hd He Ht Hw. unfold runMinimaxAlgorithm. rewrite Nat.sub_0_r.
  rewrite root_value_exact by assumption.
  destruct maxDepth as [|[|n]]; try lia.
  assert (Hne : calculateTransitions (board w) true <> [])
    by (intros E; rewrite E in Ht; contradiction).
  destruct (fullMinimax_max (S n) He Hne) as (Hge & _).
  specialize (Hge t Ht). rewrite fullMinimax_won in Hge by assumption. exact Hge.
Qed.

(** *** The tie-break set of the root *)

Lemma root_loop (Hundo : ExactUndo) (Hrange : ScoresInRange) n (b0 : T) rest :
  (forall t, In t rest -> undoTransition (applyTransition b0 t) t = b0) ->
  forall (f : Frame) (w : World),
  board w = b0 -> alpha f = best f -> beta f = POS_INF ->
  NEG_INF <= best f <= POS_INF ->
  best (fst (forEach (visit (search n) true) rest f w))
    = maximum (best f)
        (map (fun t => fullMinimax n (applyTransition b0 t) false) rest) /\
  bestTransitions (fst (forEach (visit (search n) true) rest f w))
    = (if best (fst (forEach (visit (search n) true) rest f w)) =? best f
       then bestTransitions f else [])
      ++ filter (fun t => fullMinimax n (applyTransition b0 t) false
                          =? best (fst (forEach (visit (search n) true) rest f w)))
                rest.
Proof.
  induction rest as [|t rest IH]; intros Hu f w Hb Ha Hbt Hbest.
  - cbn. rewrite Z.eqb_refl, app_nil_r. split; reflexivity.
  - rewrite forEach_cons, visit_enter by lia. cbn [fst snd].
    set (w1 := snd (callApply applyTransition t w)).
    set (v := valueOf (search n (negb true) (alpha f) (beta f) w1)).
    set (w2 := snd (callUndo undoTransition t
                      (snd (search n (negb true) (alpha f) (beta f) w1)))).
    set (Ft := fullMinimax n (applyTransition b0 t) false).
    assert (Hw : WindowSpec (alpha f) (beta f) v Ft).
    { subst v Ft. replace (applyTransition b0 t) with (board w1)
        by (subst w1; cbn; now rewrite Hb).
      apply search_window; try assumption; lia. }
    assert (Hr : NEG_INF <= Ft <= POS_INF) by apply (fullMinimax_range Hrange).
    assert (Hb2 : board w2 = b0).
    { subst w2. cbn. rewrite search_board by assumption. subst w1. cbn.
      rewrite Hb. apply Hu. now left. }
    assert (Hv : (v < best f /\ Ft <= v) \/ (best f <= v /\ Ft = v)).
    { destruct Hw as (W1 & W2 & W3).
      destruct (Z_lt_le_dec v (best f)) as [L|L].
      - left. split; [exact L|]. apply W1. lia.
      - right. split; [exact L|].
        destruct (Z_lt_le_dec (beta f) v) as [L'|L'];
          [specialize (W2 L'); lia | apply W3; lia]. }
    assert (Hu' : forall t', In t' rest ->
                  undoTransition (applyTransition b0 t') t' = b0)
      by (intros t' H'; apply Hu; now right).
    cbn [map filter]. fold Ft. unfold maximum. cbn [fold_left].
    fold (maximum (Z.max (best f) Ft)
            (map (fun t0 => fullMinimax n (applyTransition b0 t0) false) rest)).
    destruct Hv as [(L & Lf)|(L & Ef)].
    + assert (Eu : update true t v f = f).
      { unfold update. destruct (Z.eqb_spec v (best f)); [lia|]. cbn.
        destruct (Z.gtb_spec v (best f)); [lia | reflexivity]. }
      rewrite Eu. destruct (IH Hu' f w2 Hb2 Ha Hbt Hbest) as (E1 & E2).
      set (r := best (fst (forEach (visit (search n) true) rest f w2))) in *.
      pose proof (proj1 (maximum_spec
                    (map (fun t0 => fullMinimax n (applyTransition b0 t0) false) rest)
                    (best f))) as Hm.
      rewrite <- E1 in Hm. rewrite Z.max_l by lia. split; [exact E1|].
      destruct (Z.eqb_spec Ft r); [lia | exact E2].
    + destruct (Z.eq_dec v (best f)) as [Ev|Ev].
      * assert (Eu : update true t v f
                     = mkFrame (best f) (bestTransitions f ++ [t]) (alpha f) (beta f)).
        { unfold update. destruct (Z.eqb_spec v (best f)); [reflexivity | lia]. }
        rewrite Eu.
        destruct (IH Hu' (mkFrame (best f) (bestTransitions f ++ [t])
                                  (alpha f) (beta f)) w2 Hb2 Ha Hbt Hbest)
          as (E1 & E2). cbn [best bestTransitions] in E1, E2.
        set (r := best (fst (forEach (visit (search n) true) rest _ w2))) in *.
        rewrite Z.max_l by lia. split; [exact E1|]. rewrite E2.
        destruct (Z.eqb_spec r (best f)) as [Er|Er].
        -- destruct (Z.eqb_spec Ft r); [|lia]. now rewrite <- app_assoc.
        -- destruct (Z.eqb_spec Ft r); [lia | reflexivity].
      * assert (Eu : update true t v f
                     = mkFrame v [t] (Z.max (alpha f) v) (beta f)).
        { unfold update. destruct (Z.eqb_spec v (best f)); [lia|]. cbn.
          destruct (Z.gtb_spec v (best f)); [reflexivity | lia]. }
        rewrite Eu.
        destruct (IH Hu' (mkFrame v [t] (Z.max (alpha f) v) (beta f)) w2 Hb2)
          as (E1 & E2); cbn [best alpha beta]; try lia.
        cbn [best bestTransitions] in E1, E2.
        set (r := best (fst (forEach (visit (search n) true) rest _ w2))) in *.
        pose proof (proj1 (maximum_spec
                      (map (fun t0 => fullMinimax n (applyTransition b0 t0) false) rest)
                      v)) as Hm.
        rewrite <- E1 in Hm. rewrite Z.max_r by lia. rewrite Ef. split; [exact E1|].
        rewrite E2. destruct (Z.eqb_spec r (best f)); [lia|].
        rewrite (Z.eqb_sym v r). destruct (r =? v); reflexivity.
Qed.

Lemma root_frame (Hundo : ExactUndo) (Hrange : ScoresInRange) n (w : World) :
  calculateEndState (board w) = 0 ->
  calculateTransitions (board w) true <> [] ->
  best (fst (forEach (visit (search n) true)
               (calculateTransitions (board w) true)
               (rootFrame true NEG_INF POS_INF) (entered true w)))
    = fullMinimax (S n) (board w) true /\
  bestTransitions (fst (forEach (visit (search n) true)
                          (calculateTransitions (board w) true)
                          (rootFrame true NEG_INF POS_INF) (entered true w)))
    = optimalMoves n (board w) true.
Proof.
  intros He Hne.
  assert (Hbest : best (fst (forEach (visit (search n) true)
                               (calculateTransitions (board w) true)
                               (rootFrame true NEG_INF POS_INF) (entered true w)))
                  = fullMinimax (S n) (board w) true).
  { rewrite <- (root_value_exact Hundo Hrange (S n) true w).
    rewrite search_interior by assumption. cbv zeta.
    now rewrite selectResult_value. }
  split; [exact Hbest|].
  destruct (@root_loop Hundo Hrange n (board w) (calculateTransitions (board w) true)
              (fun t Ht => Hundo _ _ _ Ht)
              (rootFrame true NEG_INF POS_INF) (entered true w))
    as (_ & E2); try reflexivity.
  { cbn [rootFrame best]. unfold NEG_INF, POS_INF. lia. }
  rewrite E2, Hbest. cbn [rootFrame best bestTransitions].
  destruct (fullMinimax (S n) (board w) true =? NEG_INF); reflexivity.
Qed.

(** X3. The transition [Minimax] returns is an optimal move: with exact
    undo and scores inside the sentinels, a returned transition is one of
    the root's generated transitions, and the exhaustive minimax value of
    the board it leads to equals the exhaustive minimax value of the root. *)
Theorem returned_move_is_optimal
    (Hundo : ExactUndo) (Hrange : ScoresInRange) maxDepth (w : World) t :
  fst (Minimax maxDepth w) = Some t ->
  In t (calculateTransitions (board w) true) /\
  fullMinimax (maxDepth - 1) (applyTransition (board w) t) false
  = fullMinimax maxDepth (board w) true.
Proof.
  unfold Minimax, bind. cbn -[NEG_INF POS_INF Nat.sub]. unfold runMinimaxAlgorithm.
  rewrite Nat.sub_0_r. destruct maxDepth as [|n]; [discriminate|].
  replace (S n - 1)%nat with n by lia.
  destruct (Z.lt_trichotomy (calculateEndState (board w)) 0) as [Hs|[Hs|Hs]].
  - rewrite search_lost by assumption. discriminate.
  - destruct (calculateTransitions (board w) true) as [|t0 ts] eqn:Et.
    + rewrite search_stuck by assumption. discriminate.
    + assert (Hne : calculateTransitions (board w) true <> [])
        by (rewrite Et; discriminate).
      rewrite search_interior by assumption. cbv zeta. intros Hsel.
      apply (selectResult_from_set _ _ (t := t)) in Hsel.
      rewrite (proj2 (root_frame Hundo Hrange n w Hs Hne)) in Hsel.
      unfold optimalMoves in Hsel. apply filter_In in Hsel as (Hin & Heq).
      rewrite Et in Hin. split; [exact Hin|]. now apply Z.eqb_eq.
  - rewrite search_won by assumption. discriminate.
Qed.

Lemma selectResult_const i (f : Frame) (w : World) :
  ConstRng i w -> ConstRng i (snd (selectResult f w)).
Proof.
  intros H. unfold selectResult.
  destruct (length (bestTransitions f) =? 0)%nat; [exact H|].
  intros k. cbn. apply H.
Qed.

Lemma forEach_const i (rec : bool -> Z -> Z -> M (option U * Z)) isMax rest :
  (forall m a b w, ConstRng i w -> ConstRng i (snd (rec m a b w))) ->
  forall (f : Frame) (w : World),
  ConstRng i w -> ConstRng i (snd (forEach (visit rec isMax) rest f w)).
Proof.
  intros Hrec. induction rest as [|t rest IH]; intros f w Hw; [exact Hw|].
  rewrite forEach_cons. apply IH.
  destruct (Z_lt_le_dec (beta f) (alpha f)) as [Hc|Hc].
  - now rewrite visit_skip.
  - rewrite visit_enter by assumption. cbn [snd].
    intros k. apply (Hrec (negb isMax) (alpha f) (beta f)
                          (snd (callApply applyTransition t w))).
    intros k'. apply Hw.
Qed.

Lemma search_const i n : forall isMax a b (w : World),
  ConstRng i w -> ConstRng i (snd (search n isMax a b w)).
Proof.
  induction n as [|n IH]; intros isMax a b w Hw.
  - intros k. apply Hw.
  - assert (Hent : ConstRng i (entered isMax w)) by (intros k; apply Hw).
    destruct (Z.lt_trichotomy (calculateEndState (board w)) 0) as [H|[H|H]].
    + now rewrite search_lost.
    + destruct (calculateTransitions (board w) isMax) as [|t ts] eqn:E.
      * now rewrite search_stuck.
      * rewrite search_interior by (rewrite ?E; congruence). cbv zeta.
        apply selectResult_const. now apply forEach_const.
    + now rewrite search_won.
Qed.

(** X4. Every optimal move can be returned: with exact undo, scores inside
    the sentinels and a neutral root, each generated root transition whose
    board has the root's exhaustive minimax value is returned by [Minimax]
    for some outcomes of the generator.  The tie-break set of the root holds
    all the optimal moves, not only the first found. *)
Theorem every_optimal_move_can_be_returned
    (Hundo : ExactUndo) (Hrange : ScoresInRange) n (w : World) t :
  calculateEndState (board w) = 0 ->
  In t (calculateTransitions (board w) true) ->
  fullMinimax n (applyTransition (board w) t) false
  = fullMinimax (S n) (board w) true ->
  exists draws,
    fst (Minimax (S n) (mkWorld (board w) draws (trace w))) = Some t.
Proof.
  intros He Hin Hopt.
  assert (Hne : calculateTransitions (board w) true <> [])
    by (intros E; rewrite E in Hin; contradiction).
  assert (Hmem : In t (optimalMoves n (board w) true))
    by (apply filter_In; split; [exact Hin | now apply Z.eqb_eq]).
  destruct (In_nth_error _ _ Hmem) as (i & Hi).
  assert (Hlen : (i < length (optimalMoves n (board w) true))%nat)
    by (apply nth_error_Some; rewrite Hi; discriminate).
  exists (fun _ => i). set (w0 := mkWorld (board w) (fun _ : nat => i) (trace w)).
  unfold Minimax, bind. cbn -[NEG_INF POS_INF Nat.sub]. unfold runMinimaxAlgorithm.
  rewrite Nat.sub_0_r, search_interior by assumption. cbv zeta.
  pose proof (root_frame Hundo Hrange n w0 He Hne) as (_ & Eb).
  change (board w0) with (board w) in *.
  set (f := fst (forEach _ _ _ _)) in *. set (w' := snd (forEach _ _ _ _)).
  assert (Hc : ConstRng i w').
  { subst w'. apply forEach_const; [intros; now apply search_const|].
    intros k. reflexivity. }
  destruct (selectResult_pick f w') as (t' & Et & N & _);
    [rewrite Eb; intros E; rewrite E in Hmem; contradiction|].
  rewrite Et. cbn [fst]. rewrite Eb, (Hc 0%nat), Nat.mod_small in N by exact Hlen.
  congruence.
Qed.

(** *** The protocol of the callbacks *)

Lemma forEach_protocol (Hundo : ExactUndo) n isMax (b0 : T) :
  (forall m a b (w : World), exists evs,
     trace (snd (search n m a b w)) = trace w ++ evs
     /\ NodeLog n m (board w) evs) ->
  forall rest,
  (forall t, In t rest -> In t (calculateTransitions b0 isMax)) ->
  forall (f : Frame) (w : World),
  board w = b0 ->
  exists kids,
    trace (snd (forEach (visit (search n) isMax) rest f w)) = trace w ++ kids
    /\ ChildrenLog n isMax b0 kids.
Proof.
  intros Hrec. induction rest as [|t rest IH]; intros Hin f w Hb.
  - exists []. split; [cbn; now rewrite app_nil_r | constructor].
  - rewrite forEach_cons.
    assert (Hin' : forall t', In t' rest -> In t' (calculateTransitions b0 isMax))
      by (intros t' H'; apply Hin; now right).
    destruct (Z_lt_le_dec (beta f) (alpha f)) as [Hc|Hc].
    + rewrite visit_skip by assumption. now apply IH.
    + rewrite visit_enter by assumption. cbn [fst snd].
      set (w1 := snd (callApply applyTransition t w)).
      set (r := search n (negb isMax) (alpha f) (beta f) w1).
      set (w2 := snd (callUndo undoTransition t (snd r))).
      destruct (Hrec (negb isMax) (alpha f) (beta f) w1) as (inner & Ei & Ni).
      fold r in Ei.
      assert (Hb1 : board w1 = applyTransition b0 t) by (subst w1; cbn; now rewrite Hb).
      assert (Hbr : board (snd r) = applyTransition b0 t)
        by (subst r; rewrite search_board by assumption; exact Hb1).
      assert (Hb2 : board w2 = b0).
      { subst w2. cbn. rewrite Hbr. apply (Hundo b0 isMax). apply Hin. now left. }
      destruct (IH Hin' (update isMax t (valueOf r) f) w2 Hb2) as (kids & Ek & Nk).
      exists (EApply b0 t :: inner ++ EUndo (applyTransition b0 t) t :: kids).
      split.
      * rewrite Ek. subst w2. unfold callUndo. cbn [snd trace]. rewrite Ei, Hbr.
        subst w1. unfold callApply. cbn [snd trace]. rewrite Hb.
        rewrite <- !app_assoc. reflexivity.
      * apply ChildrenLog_cons; [apply Hin; now left | now rewrite <- Hb1 | exact Nk].
Qed.

(** X5. The callbacks are called by a fixed protocol.  With exact undo and
    [depth <= maxDepth], the calls of an engine run with [maxDepth - depth]
    levels left follow
    [NodeLog]: a depth-limit leaf only evaluates its board, and every other
    node generates the transitions of its role, checks the end state, then
    visits children; each child is searched between the apply and the undo
    of one generated transition, on the board that apply produced, with the
    opposite role and one level less, and every sibling is applied to the
    node's own board; a node draws at most once, after its children. *)
Theorem callback_protocol
    (Hundo : ExactUndo) depth maxDepth isMax a b (w : World) :
  (depth <= maxDepth)%nat ->
  exists evs,
    trace (snd (runMinimaxAlgorithm depth maxDepth isMax a b w)) = trace w ++ evs
    /\ NodeLog (maxDepth - depth) isMax (board w) evs.
Proof.
  intros _. unfold runMinimaxAlgorithm. generalize (maxDepth - depth)%nat as n.
  clear depth maxDepth. intros n. revert isMax a b w.
  induction n as [|n IH]; intros isMax a b w.
  - exists [ECalcBoard (board w)]. split; [reflexivity | constructor].
  - assert (Hent : trace (entered isMax w) =
                   trace w ++ [ECalcTransitions (board w) isMax;
                               ECalcEndState (board w)])
      by (cbn; now rewrite <- app_assoc).
    assert (Hterm : exists evs,
              trace (entered isMax w) = trace w ++ evs
              /\ NodeLog (S n) isMax (board w) evs).
    { exists ([ECalcTransitions (board w) isMax; ECalcEndState (board w)]).
      split; [exact Hent|].
      apply (NodeLog_node (n := n) (isMax := isMax) (b := board w)
               (kids := []) (draw := [])); [constructor | now left]. }
    destruct (Z.lt_trichotomy (calculateEndState (board w)) 0) as [H|[H|H]].
    + now rewrite search_lost.
    + destruct (calculateTransitions (board w) isMax) as [|t ts] eqn:E.
      * now rewrite search_stuck.
      * rewrite search_interior by (rewrite ?E; congruence). cbv zeta.
        destruct (@forEach_protocol Hundo n isMax (board w) IH
                    (calculateTransitions (board w) isMax) (fun _ H => H)
                    (rootFrame isMax a b) (entered isMax w) eq_refl)
          as (kids & Ek & Nk).
        set (f := fst (forEach _ _ _ _)) in *. set (w' := snd (forEach _ _ _ _)) in *.
        assert (Hd : exists draw,
                  trace (snd (selectResult f w')) = trace w' ++ draw
                  /\ (draw = [] \/ exists k, draw = [ERandom 0 k])).
        { unfold selectResult. destruct (length (bestTransitions f) =? 0)%nat.
          - exists []. split; [cbn; now rewrite app_nil_r | now left].
          - exists [ERandom 0 (length (bestTransitions f) - 1)].
            split; [reflexivity | right; eauto]. }
        destruct Hd as (draw & Ed & Hd).
        exists (ECalcTransitions (board w) isMax :: ECalcEndState (board w)
                :: kids ++ draw).
        split; [|now apply NodeLog_node].
        rewrite Ed, Ek, Hent, <- !app_assoc. reflexivity.
    + now rewrite search_won.
Qed.

(** X7. No generated move is better than the returned one: with exact
    undo and scores inside the sentinels, the board reached by the
    transition [Minimax] returns has an exhaustive minimax value at least as
    large as the board reached by any other generated root transition. *)
Theorem returned_move_dominates
    (Hundo : ExactUndo) (Hrange : ScoresInRange) maxDepth (w : World) t t' :
  fst (Minimax maxDepth w) = Some t ->
  In t' (calculateTransitions (board w) true) ->
  fullMinimax (maxDepth - 1) (applyTransition (board w) t') false
  <= fullMinimax (maxDepth - 1) (applyTransition (board w) t) false.
Proof.
  intros Hsel Hin'.
  assert (Hne : calculateTransitions (board w) true <> [])
    by (intros E; rewrite E in Hin'; contradiction).
  revert Hsel. unfold Minimax, bind. cbn -[NEG_INF POS_INF Nat.sub].
  unfold runMinimaxAlgorithm.
  rewrite Nat.sub_0_r. destruct maxDepth as [|n]; [discriminate|].
  replace (S n - 1)%nat with n by lia.
  destruct (Z.lt_trichotomy (calculateEndState (board w)) 0) as [Hs|[Hs|Hs]].
  - rewrite search_lost by assumption. discriminate.
  - rewrite search_interior by assumption. cbv zeta. intros Hsel.
    apply (selectResult_from_set _ _ (t := t)) in Hsel.
    rewrite (proj2 (root_frame Hundo Hrange n w Hs Hne)) in Hsel.
    unfold optimalMoves in Hsel. apply filter_In in Hsel as (Hin & Heq).
    apply Z.eqb_eq in Heq. cbn [negb] in Heq. rewrite Heq.
    apply (proj1 (fullMinimax_max n Hs Hne)). exact Hin'.
  - rewrite search_won by assumption. discriminate.
Qed.

End Properties.

(** ** The engine on the sample games *)

Import Sample.

Lemma pathUndo_exact (moves : list nat -> bool -> list nat) :
  ExactUndo moves pathApply pathUndo.
Proof. intros b isOwnTurn t _. reflexivity. Qed.

Lemma binScore_in_range : ScoresInRange binScore.
Proof.
  intros b. unfold binScore, NEG_INF, POS_INF.
  repeat match goal with
         | |- context [match ?x with _ => _ end] => destruct x
         end; lia.
Qed.

Lemma binScore_above : ScoresAboveNegInf binScore.
Proof. intros b. apply binScore_in_range. Qed.

(** The concrete scenario of the specification: moves A, B, C scored 5, 9, 9
    at depth 1 give the value 9 and the tie-break set B, C, from which the
    draw picks. *)
Example line_scenario :
  fst (runMinimaxAlgorithm lineMoves pathApply pathUndo lineScore noEnd
         0 1 true NEG_INF POS_INF (start zeros)) = (Some 1%nat, 9) /\
  fst (runMinimaxAlgorithm lineMoves pathApply pathUndo lineScore noEnd
         0 1 true NEG_INF POS_INF (start ones)) = (Some 2%nat, 9).
Proof. split; reflexivity. Qed.

(** On the depth-2 sample the second grandchild of the second root move is
    pruned: its board [1; 1] is never evaluated. *)
Example bin_prunes :
  ~ In (ECalcBoard [1; 1]%nat)
       (trace (snd (Minimax binMoves pathApply pathUndo binScore noEnd 2
                            (start zeros)))).
Proof. vm_compute. intuition discriminate. Qed.

Lemma alpha_beta_equals_full_minimax_witness :
  valueOf (runMinimaxAlgorithm binMoves pathApply pathUndo binScore noEnd
             0 2 true NEG_INF POS_INF (start zeros))
  = fullMinimax binMoves pathApply binScore noEnd 2 [] true.
Proof.
  apply (@alpha_beta_equals_full_minimax _ _ binMoves pathApply pathUndo
           binScore noEnd (pathUndo_exact binMoves) binScore_in_range
           2%nat (start zeros)).
Defined.

(** C1, as stated, fails: with undo exactly inverting apply, two root moves
    whose boards score 1e10 and 2e10 and [maxDepth = 1], the first child
    raises alpha above beta = 9e9, the second child is skipped and the engine
    returns 1e10, while the exhaustive minimax of the same tree is 2e10. *)
Lemma alpha_beta_differs_above_sentinel :
  ExactUndo binMoves pathApply pathUndo /\
  valueOf (runMinimaxAlgorithm binMoves pathApply pathUndo hugeScore noEnd
             0 1 true NEG_INF POS_INF (start zeros)) = 10000000000 /\
  fullMinimax binMoves pathApply hugeScore noEnd 1 [] true = 20000000000 /\
  valueOf (runMinimaxAlgorithm binMoves pathApply pathUndo hugeScore noEnd
             0 1 true NEG_INF POS_INF (start zeros))
  <> fullMinimax binMoves pathApply hugeScore noEnd 1 [] true.
Proof.
  split; [apply pathUndo_exact|].
  split; [reflexivity|]. split; [reflexivity|].
  vm_compute. discriminate.
Qed.

Lemma Minimax_restores_board_witness :
  board (snd (Minimax binMoves pathApply pathUndo binScore noEnd 2 (start zeros)))
  = [] /\
  exists evs,
    trace (snd (Minimax binMoves pathApply pathUndo binScore noEnd 2 (start zeros)))
    = [] ++ evs
      ++ [EPrint (valueOf (runMinimaxAlgorithm binMoves pathApply pathUndo
                             binScore noEnd 0 2 true NEG_INF POS_INF
                             (start zeros)))]
    /\ Bracketed evs.
Proof.
  apply (@Minimax_restores_board _ _ binMoves pathApply pathUndo binScore noEnd
           (pathUndo_exact binMoves) 2%nat (start zeros)).
Defined.

Lemma end_state_terminal_witness :
  fst (runMinimaxAlgorithm binMoves pathApply pathUndo binScore wonAtStart
         0 1 true NEG_INF POS_INF (start zeros)) = (None, WIN_SCORE) /\
  fst (runMinimaxAlgorithm binMoves pathApply pathUndo binScore lostAtStart
         0 1 true NEG_INF POS_INF (start zeros)) = (None, LOSS_SCORE).
Proof.
  split.
  - apply (@end_state_terminal _ _ binMoves pathApply pathUndo binScore
             wonAtStart 0%nat 1%nat true NEG_INF POS_INF (start zeros)
             ltac:(lia)).
    reflexivity.
  - apply (@end_state_terminal _ _ binMoves pathApply pathUndo binScore
             lostAtStart 0%nat 1%nat true NEG_INF POS_INF (start zeros)
             ltac:(lia)).
    reflexivity.
Defined.

(** C3, as stated, fails in its last part: the engine accepts any score, and
    a board scored 9e9 makes it return, at a depth-limit leaf, a heuristic
    value that is not below [WIN_SCORE]. *)
Lemma heuristic_value_not_below_win_score :
  valueOf (runMinimaxAlgorithm binMoves pathApply pathUndo topScore noEnd
             0 0 true NEG_INF POS_INF (start zeros)) = topScore [] /\
  ~ (LOSS_SCORE < topScore [] < WIN_SCORE).
Proof.
  split; [reflexivity|]. unfold topScore, LOSS_SCORE, WIN_SCORE, NEG_INF, POS_INF. lia.
Qed.

Lemma no_moves_terminal_witness :
  fst (runMinimaxAlgorithm lineMoves pathApply pathUndo lineScore noEnd
         0 1 false NEG_INF POS_INF
         (mkWorld (U := nat) [0%nat] zeros [])) = (None, 0).
Proof.
  apply (@no_moves_terminal _ _ lineMoves pathApply pathUndo lineScore noEnd
           0%nat 1%nat false NEG_INF POS_INF
           (mkWorld (U := nat) [0%nat] zeros [])).
  - lia.
  - reflexivity.
  - reflexivity.
Defined.

Lemma generation_precedes_end_state_check_witness :
  exists evs,
    trace (snd (runMinimaxAlgorithm binMoves pathApply pathUndo binScore
                  wonAtStart 0 1 true NEG_INF POS_INF (start zeros)))
    = [] ++ ECalcTransitions [] true :: ECalcEndState [] :: evs
    /\ (wonAtStart [] <> 0 -> evs = []).
Proof.
  apply (@generation_precedes_end_state_check _ _ binMoves pathApply pathUndo
           binScore wonAtStart 0%nat 1%nat true NEG_INF POS_INF (start zeros)).
  lia.
Defined.

(** C7, as stated, fails: on a board whose end state is nonzero the root
    still calls the generator, and calls it before the end-state check. *)
Lemma generator_called_despite_end_state :
  wonAtStart [] <> 0 /\
  trace (snd (runMinimaxAlgorithm binMoves pathApply pathUndo binScore
                wonAtStart 0 1 true NEG_INF POS_INF (start zeros)))
  = [ECalcTransitions [] true; ECalcEndState []].
Proof. split; [discriminate | reflexivity]. Qed.

Lemma no_transition_without_moves_witness :
  fst (Minimax binMoves pathApply pathUndo binScore wonAtStart 1 (start zeros))
  = None.
Proof.
  apply (@no_transition_without_moves _ _ binMoves pathApply pathUndo binScore
           wonAtStart 1%nat (start zeros)).
  right. left. discriminate.
Defined.

Lemma root_returns_generated_transition_witness :
  exists t,
    fst (Minimax binMoves pathApply pathUndo binScore noEnd 2 (start zeros))
    = Some t /\ In t (binMoves [] true).
Proof.
  apply (@root_returns_generated_transition _ _ binMoves pathApply pathUndo
           binScore noEnd binScore_above 2%nat (start zeros)).
  - lia.
  - reflexivity.
  - discriminate.
Defined.

(** C9, as stated, fails: with [maxDepth = 1], a neutral end state and two
    generated moves, boards that all score -1e10 never beat the initial
    best -9e9, the tie-break set stays empty and no transition is returned. *)
Lemma root_returns_nothing_below_sentinel :
  (1 <= 1)%nat /\ noEnd [] = 0 /\ binMoves [] true <> [] /\
  fst (Minimax binMoves pathApply pathUndo tinyScore noEnd 1 (start zeros))
  = None.
Proof. repeat split; [lia | discriminate]. Qed.



(** *** Instances of the further properties *)

Lemma lineScore_in_range : ScoresInRange lineScore.
Proof.
  intros b. unfold lineScore, NEG_INF, POS_INF.
  repeat match goal with
         | |- context [match ?x with _ => _ end] => destruct x
         end; lia.
Qed.

Lemma window_guarantee_witness :
  (valueOf (runMinimaxAlgorithm binMoves pathApply pathUndo binScore noEnd
              0 2 true 4 6 (start zeros)) < 4 ->
   fullMinimax binMoves pathApply binScore noEnd (2 - 0) [] true
   <= valueOf (runMinimaxAlgorithm binMoves pathApply pathUndo binScore noEnd
                 0 2 true 4 6 (start zeros))) /\
  valueOf (runMinimaxAlgorithm binMoves pathApply pathUndo binScore noEnd
             0 2 true 4 6 (start zeros)) < 4.
Proof.
  split; [|reflexivity].
  apply (@window_guarantee _ _ binMoves pathApply pathUndo binScore noEnd
           (pathUndo_exact binMoves) binScore_in_range
           0%nat 2%nat true 4 6 (start zeros));
    unfold NEG_INF, POS_INF; lia.
Defined.

Lemma value_within_sentinels_witness :
  NEG_INF
  <= valueOf (runMinimaxAlgorithm binMoves pathApply pathUndo binScore noEnd
                1 2 false 7 1 (start zeros))
  <= POS_INF.
Proof.
  apply (@value_within_sentinels _ _ binMoves pathApply pathUndo binScore noEnd
           binScore_in_range 1%nat 2%nat false 7 1 (start zeros)).
Defined.

Lemma returned_move_is_optimal_witness :
  In 0%nat (binMoves [] true) /\
  fullMinimax binMoves pathApply binScore noEnd (2 - 1) (pathApply [] 0%nat) false
  = fullMinimax binMoves pathApply binScore noEnd 2 [] true.
Proof.
  apply (@returned_move_is_optimal _ _ binMoves pathApply pathUndo binScore noEnd
           (pathUndo_exact binMoves) binScore_in_range 2%nat (start zeros) 0%nat).
  reflexivity.
Defined.

Lemma every_optimal_move_can_be_returned_witness :
  exists draws,
    fst (Minimax lineMoves pathApply pathUndo lineScore noEnd 1
           (mkWorld (U := nat) [] draws [])) = Some 2%nat.
Proof.
  apply (@every_optimal_move_can_be_returned _ _ lineMoves pathApply pathUndo
           lineScore noEnd (pathUndo_exact lineMoves) lineScore_in_range
           0%nat (start zeros) 2%nat).
  - reflexivity.
  - cbn. auto.
  - reflexivity.
Defined.

Lemma callback_protocol_witness :
  exists evs,
    trace (snd (runMinimaxAlgorithm binMoves pathApply pathUndo binScore noEnd
                  0 2 true NEG_INF POS_INF (start zeros))) = [] ++ evs
    /\ NodeLog binMoves pathApply (2 - 0) true [] evs.
Proof.
  apply (@callback_protocol _ _ binMoves pathApply pathUndo binScore noEnd
           (pathUndo_exact binMoves) 0%nat 2%nat true NEG_INF POS_INF
           (start zeros)).
  lia.
Defined.

Lemma immediate_win_is_found_witness :
  WIN_SCORE
  <= valueOf (runMinimaxAlgorithm binMoves pathApply pathUndo binScore
                wonAfterMoveOne 0 2 true NEG_INF POS_INF (start zeros)).
Proof.
  apply (@immediate_win_is_found _ _ binMoves pathApply pathUndo binScore
           wonAfterMoveOne (pathUndo_exact binMoves) binScore_in_range
           2%nat (start zeros) 1%nat).
  - lia.
  - reflexivity.
  - cbn. auto.
  - reflexivity.
Defined.

Lemma returned_move_dominates_witness :
  fullMinimax binMoves pathApply binScore noEnd (2 - 1) (pathApply [] 1%nat) false
  <= fullMinimax binMoves pathApply binScore noEnd (2 - 1) (pathApply [] 0%nat) false.
Proof.
  apply (@returned_move_dominates _ _ binMoves pathApply pathUndo binScore noEnd
           (pathUndo_exact binMoves) binScore_in_range 2%nat (start zeros)
           0%nat 1%nat).
  - reflexivity.
  - cbn. auto.
Defined.
